(** * Dictation assistant: review scheduling and session selection

    A shallow embedding of the scheduling core of the dictation assistant
    ([services/storageService.ts], [App.tsx], [components/DictationSession.tsx]
    and the correction view) and the properties its specification states
    about it.

    Conventions of the embedding:
    - integer-valued JavaScript numbers (counters, day counts, millisecond
      timestamps) are [Z]; binary64 adds, multiplies and compares such
      integers exactly as long as the results stay below 2^53 ([add_of_Z],
      [mul_of_Z], [Math_max_of_Z]), and the statements about sums are for
      that range;
    - numbers that hold fractions ([easeFactor], the smart-review score, the
      results of comparators and of [Math.random()]) are IEEE-754 binary64
      values ([spec_float] with precision 53 and maximal exponent 1024), and
      their arithmetic is the correctly rounded one of [SpecFloat];
    - where the code turns an integer into a fraction or back
      ([interval * 1.3] and its [Math.round], the division behind the score),
      [Float64.of_Z] and [Float64.Math_round] convert; [round_mul_agrees]
      checks the rounded product against exact decimal arithmetic for every
      interval up to ten years;
    - [Date.now()] and [Math.random()] read from an explicit world that is
      threaded through the code in a state monad. *)

From Stdlib Require Import String Ascii Bool ZArith QArith Qround Lia Lqa.
From Stdlib Require Import SpecFloat List Permutation Sorted.
Import ListNotations.

Open Scope Z_scope.

(** ** JavaScript numbers *)

Module Float64.

Definition prec : Z := 53.
Definition emax : Z := 1024.

Definition add : spec_float -> spec_float -> spec_float := SFadd prec emax.
Definition sub : spec_float -> spec_float -> spec_float := SFsub prec emax.
Definition mul : spec_float -> spec_float -> spec_float := SFmul prec emax.
Definition div : spec_float -> spec_float -> spec_float := SFdiv prec emax.

(** The binary64 value nearest to an integer (exact below 2^53). *)
Definition of_Z (n : Z) : spec_float := binary_normalize prec emax n 0 false.

Definition is_nan (x : spec_float) : bool :=
  match x with S754_nan => true | _ => false end.

(** [x >= y] on numbers; false as soon as one side is NaN. *)
Definition geb (x y : spec_float) : bool := SFleb y x.

(** [v > 0], the test a sort applies to the result of its comparator; false
    for NaN. *)
Definition gt0 (v : spec_float) : bool := SFltb (S754_zero false) v.

(** The literals of the source, as the binary64 values a JavaScript engine
    reads them as. *)
Definition lit_1_3 : spec_float := S754_finite false 5854679515581645 (-52).
Definition lit_0_1 : spec_float := S754_finite false 7205759403792794 (-56).
Definition lit_0_2 : spec_float := S754_finite false 7205759403792794 (-55).
Definition lit_2_5 : spec_float := S754_finite false 5629499534213120 (-51).
Definition lit_0_5 : spec_float := S754_finite false 4503599627370496 (-53).

(** [Math.max(x, y)]: NaN when either argument is NaN, and [+0] is larger
    than [-0]. *)
Definition Math_max (x y : spec_float) : spec_float :=
  match SFcompare x y with
  | None => S754_nan
  | Some Lt => y
  | Some Gt => x
  | Some Eq => match x with S754_zero true => y | _ => x end
  end.

(** [Math.round(x)] as an integer: [floor(x + 1/2)], computed exactly from
    mantissa and exponent.  NaN and the infinities, which [Math.round] hands
    back unchanged, have no integer value; they are sent to 0 here and do not
    arise from safe integers. *)
Definition Math_round (x : spec_float) : Z :=
  match x with
  | S754_finite s m e =>
      let n := cond_Zopp s (Z.pos m) in
      if 0 <=? e then n * 2 ^ e
      else (2 * n + 2 ^ (- e)) / 2 ^ (- e + 1)
  | _ => 0
  end.

(** *** The value of a number

    A number is regular when it is not NaN and, if finite, has an exponent of
    at least [emin = -1074]; the arithmetic above returns regular numbers
    only.  A regular finite number [(-1)^s * m * 2^e] is a whole multiple of
    [2^emin], the smallest positive binary64 value, and [scaled] is that
    multiple.  [compare] is the order of the values, with the infinities at
    the two ends; on valid representations it is [SFcompare]
    ([Float64Facts.compare_valid]). *)

Definition emin : Z := SpecFloat.emin prec emax.

Definition regular (x : spec_float) : bool :=
  match x with
  | S754_nan => false
  | S754_finite _ _ e => emin <=? e
  | _ => true
  end.

(** A non-zero number of sign [s]. *)
Definition signed (s : bool) (x : spec_float) : Prop :=
  match x with
  | S754_finite s' _ _ | S754_infinity s' => s' = s
  | _ => False
  end.

Definition class (x : spec_float) : Z :=
  match x with
  | S754_infinity true => -1
  | S754_infinity false => 1
  | _ => 0
  end.

Definition scaled (x : spec_float) : Z :=
  match x with
  | S754_finite s m e => cond_Zopp s (Z.pos m) * 2 ^ (e - emin)
  | _ => 0
  end.

Definition compare (x y : spec_float) : comparison :=
  match class x ?= class y with
  | Eq => scaled x ?= scaled y
  | c => c
  end.

(** [x <= y] and [x = y] as values. *)
Definition le (x y : spec_float) : Prop := compare x y <> Gt.

Definition eqvb (x y : spec_float) : bool :=
  match compare x y with Eq => true | _ => false end.

End Float64.

(** Rounding of an exact rational to the nearest integer, halves up: what
    [Math.round] computes when its argument carries no rounding error. *)
Definition exact_round (q : Q) : Z := Qfloor (q + (1 # 2)).

(** [x || 0] on an optional number: [undefined] and [0] both give [0]. *)
Definition or0 (x : option Z) : Z :=
  match x with
  | Some n => n
  | None => 0
  end.

(** ** The world: wall clock and random source *)

Record World := {
  clock : nat -> Z;        (* successive readings of [Date.now()] *)
  reads : nat;             (* readings taken so far *)
  random : nat -> spec_float;  (* successive results of [Math.random()] *)
  draws : nat              (* results drawn so far *)
}.

Definition M (A : Type) : Type := World -> A * World.

Definition ret {A : Type} (a : A) : M A := fun w => (a, w).

Definition bind {A B : Type} (c : M A) (k : A -> M B) : M B :=
  fun w => let (a, w') := c w in k a w'.

Notation "x <- c ;; k" := (bind c (fun x => k))
  (at level 61, c at next level, right associativity).

(** The reading the next call of [Date.now()] returns, and the world after
    that call. *)
Definition now_of (w : World) : Z := clock w (reads w).

Definition tick (w : World) : World :=
  {| clock := clock w; reads := S (reads w);
     random := random w; draws := draws w |}.

Definition Date_now : M Z := fun w => (now_of w, tick w).

Definition Math_random : M spec_float :=
  fun w => (random w (draws w),
            {| clock := clock w; reads := reads w;
               random := random w; draws := S (draws w) |}).

Fixpoint mapM {A B : Type} (f : A -> M B) (l : list A) : M (list B) :=
  match l with
  | [] => ret []
  | x :: xs => y <- f x ;; ys <- mapM f xs ;; ret (y :: ys)
  end.

(** ** types.ts *)

(** [lastWrongAt?: number | null] *)
Inductive OptTimestamp :=
| Undefined
| Null
| Timestamp (t : Z).

Record WordItem := {
  id : string;
  text : string;
  groupTitle : option string;
  addedAt : Z;
  lastReviewed : option Z;
  nextReview : Z;
  streak : Z;
  easeFactor : spec_float;
  interval : Z;
  totalAttempts : option Z;
  totalWrong : option Z;
  lastWrongAt : OptTimestamp
}.

Inductive AppView :=
| DASHBOARD | INPUT | DICTATION | CORRECTION | SETTINGS | WORD_LIST.

Inductive PlaybackOrder := SEQUENTIAL | REVERSE | SHUFFLE.

Record DictationSettings := {
  voice : string;
  intervalSeconds : Z;
  order : PlaybackOrder;
  autoRepeat : Z;
  maxReviewBatchSize : Z;
  silenceThreshold : Z
}.

Definition DEFAULT_SETTINGS : DictationSettings := {|
  voice := "";
  intervalSeconds := 5;
  order := SEQUENTIAL;
  autoRepeat := 1;
  maxReviewBatchSize := 10;
  silenceThreshold := 500
|}.

Definition ONE_DAY : Z := 24 * 60 * 60 * 1000.

(** ** services/storageService.ts *)

(** The locals [calculateNextReview] destructures from the word and then
    reassigns. *)
Record Schedule := {
  s_streak : Z;
  s_easeFactor : spec_float;
  s_interval : Z;
  s_totalWrong : Z;
  s_lastWrongAt : OptTimestamp
}.

(** The streak, the counters and the timestamps are integers; the sums
    [streak + 1], [totalAttempts + 1], [totalWrong + 1] and
    [now + interval * ONE_DAY] are those of [Z], which are the values of the
    binary64 operations of the source as long as they stay below 2^53.
    [interval * 1.3] and the ease factor are computed in binary64. *)
Definition calculateNextReview (word : WordItem) (isCorrect : bool) : M WordItem :=
  now <- Date_now ;;
  let totalAttempts' := or0 (totalAttempts word) + 1 in
  let totalWrong0 := or0 (totalWrong word) in
  let s :=
    if isCorrect then
      {| s_streak := Z.max (streak word + 1) 10;
         s_interval :=
           if interval word >? 14
           then Float64.Math_round
                  (Float64.mul (Float64.of_Z (interval word)) Float64.lit_1_3)
           else 14;
         s_easeFactor :=
           Float64.Math_max Float64.lit_1_3
             (Float64.add (easeFactor word) Float64.lit_0_1);
         s_totalWrong := totalWrong0;
         s_lastWrongAt := lastWrongAt word |}
    else
      {| s_streak := 0;
         s_interval := 0;
         s_easeFactor :=
           Float64.Math_max Float64.lit_1_3
             (Float64.sub (easeFactor word) Float64.lit_0_2);
         s_totalWrong := totalWrong0 + 1;
         s_lastWrongAt := Timestamp now |} in
  let nextReviewTime :=
    if s_interval s =? 0 then now else now + s_interval s * ONE_DAY in
  ret {| id := id word;
         text := text word;
         groupTitle := groupTitle word;
         addedAt := addedAt word;
         lastReviewed := Some now;
         nextReview := nextReviewTime;
         streak := s_streak s;
         easeFactor := s_easeFactor s;
         interval := s_interval s;
         totalAttempts := Some totalAttempts';
         totalWrong := Some (s_totalWrong s);
         lastWrongAt := s_lastWrongAt s |}.

(** ** Array methods *)

Section ArraySort.

Context {A : Type}.

(** [comparefn a b] answers with a number; only its sign is used.  It may
    read the world (the shuffle comparator draws a random number). *)
Variable comparefn : A -> A -> M spec_float.

(** Insertion of [x] in front of an already ordered suffix: [x] passes the
    elements it compares strictly above and stops at the first one it does
    not. *)
Fixpoint insert (x : A) (sorted : list A) : M (list A) :=
  match sorted with
  | [] => ret [x]
  | y :: ys =>
      v <- comparefn x y ;;
      if Float64.gt0 v
      then (r <- insert x ys ;; ret (y :: r))
      else ret (x :: y :: ys)
  end.

(** [Array.prototype.sort(comparefn)].  ECMAScript leaves the algorithm to
    the engine and requires the result to be stable; for a consistent
    comparator every stable algorithm returns the same array.  The model is
    a stable insertion sort. *)
Fixpoint Array_sort (l : list A) : M (list A) :=
  match l with
  | [] => ret []
  | x :: xs => sorted <- Array_sort xs ;; insert x sorted
  end.

End ArraySort.

(** The same sort for a comparator that does not touch the world. *)
Section PureSort.

Context {A : Type}.
Variable compare : A -> A -> spec_float.

Fixpoint insertBy (x : A) (sorted : list A) : list A :=
  match sorted with
  | [] => [x]
  | y :: ys =>
      if Float64.gt0 (compare x y) then y :: insertBy x ys
      else x :: y :: ys
  end.

Definition sortBy (l : list A) : list A := fold_right insertBy [] l.

End PureSort.

(** [array.slice(0, end)]: a negative [end] counts from the end of the
    array. *)
Definition slice0 {A : Type} (l : list A) (stop : Z) : list A :=
  let len := Z.of_nat (List.length l) in
  let final := if stop <? 0 then Z.max (len + stop) 0 else Z.min stop len in
  firstn (Z.to_nat final) l.

(** ** App.tsx *)

(** The component state the scheduling handlers touch, and the [alert]
    dialogs shown so far (latest last). *)
Record App := {
  view : AppView;
  words : list WordItem;
  sessionWords : list WordItem;
  settings : DictationSettings;
  alerts : list string
}.

Definition setView (v : AppView) (st : App) : App :=
  {| view := v; words := words st; sessionWords := sessionWords st;
     settings := settings st; alerts := alerts st |}.

Definition setWords (ws : list WordItem) (st : App) : App :=
  {| view := view st; words := ws; sessionWords := sessionWords st;
     settings := settings st; alerts := alerts st |}.

Definition setSessionWords (ws : list WordItem) (st : App) : App :=
  {| view := view st; words := words st; sessionWords := ws;
     settings := settings st; alerts := alerts st |}.

Definition alert (msg : string) (st : App) : App :=
  {| view := view st; words := words st; sessionWords := sessionWords st;
     settings := settings st; alerts := alerts st ++ [msg] |}.

(** The record [handleSaveWords] builds for a word that is new; [uuid] is
    the result of [uuidv4()]. *)
Definition newWordItem (uuid txt title : string) (now : Z) : WordItem := {|
  id := uuid;
  text := txt;
  groupTitle := Some title;
  addedAt := now;
  lastReviewed := None;
  nextReview := now;
  streak := 0;
  easeFactor := Float64.lit_2_5;
  interval := 0;
  totalAttempts := Some 0;
  totalWrong := Some 0;
  lastWrongAt := Null
|}.

(** [w.nextReview <= now] *)
Definition isDue (now : Z) (w : WordItem) : bool := nextReview w <=? now.

Definition allDueWords (st : App) : M (list WordItem) :=
  now <- Date_now ;;
  ret (filter (isDue now) (words st)).

(** [(w.totalWrong || 0) > 0] *)
Definition hasHistory (w : WordItem) : bool := or0 (totalWrong w) >? 0.

Definition hasHistoryWords (st : App) : list WordItem :=
  filter hasHistory (words st).

Inductive Status := REVIEW | MASTERED.

(** The callback [handleUpdateWordStatus] maps over the words. *)
Definition updateWordStatus (targetWord : WordItem) (status : Status)
    (w : WordItem) : M WordItem :=
  if String.eqb (id w) (id targetWord) then
    match status with
    | MASTERED =>
        now1 <- Date_now ;;
        now2 <- Date_now ;;
        ret {| id := id w; text := text w; groupTitle := groupTitle w;
               addedAt := addedAt w;
               lastReviewed := Some now2;
               nextReview := now1 + 30 * 24 * 60 * 60 * 1000;
               streak := 10;
               easeFactor := easeFactor w;
               interval := 30;
               totalAttempts := totalAttempts w;
               totalWrong := totalWrong w;
               lastWrongAt := lastWrongAt w |}
    | REVIEW =>
        now <- Date_now ;;
        ret {| id := id w; text := text w; groupTitle := groupTitle w;
               addedAt := addedAt w;
               lastReviewed := lastReviewed w;
               nextReview := now;
               streak := 0;
               easeFactor := Float64.lit_2_5;
               interval := 0;
               totalAttempts := totalAttempts w;
               totalWrong := totalWrong w;
               lastWrongAt := lastWrongAt w |}
    end
  else ret w.

Definition handleUpdateWordStatus (targetWord : WordItem) (status : Status)
    (st : App) : M App :=
  updated <- mapM (updateWordStatus targetWord status) (words st) ;;
  ret (setWords updated st).

(** The heuristic score of the smart-review comparator. *)
Definition score (now : Z) (a : WordItem) : spec_float :=
  let wrongA := or0 (totalWrong a) in
  let timeA :=
    match lastWrongAt a with
    | Timestamp t => if t =? 0 then 0 else now - t
    | _ => 0
    end in
  let daysA := Float64.div (Float64.of_Z timeA) (Float64.of_Z ONE_DAY) in
  Float64.add (Float64.of_Z (wrongA * 2)) daysA.

Definition NO_HISTORY_MESSAGE : string :=
  "您还没有错词记录，太棒了！继续保持！".

Definition NO_ERRORS_MESSAGE : string :=
  "这个单元没有需要复习的错词！".

Definition handleSmartReview (st : App) : M App :=
  now <- Date_now ;;
  let candidates := filter hasHistory (words st) in
  if (List.length candidates =? 0)%nat then ret (alert NO_HISTORY_MESSAGE st)
  else
    sortedCandidates <-
      Array_sort (fun a b => ret (Float64.sub (score now b) (score now a)))
        candidates ;;
    let limit :=
      if maxReviewBatchSize (settings st) =? 0 then 10
      else maxReviewBatchSize (settings st) in
    let selected := slice0 sortedCandidates limit in
    ret (setView DICTATION (setSessionWords selected st)).

Definition handleReviewGroup (groupWords : list WordItem) (onlyErrors : bool)
    (st : App) : M App :=
  if onlyErrors then
    now <- Date_now ;;
    let targetWords := filter (isDue now) groupWords in
    if (List.length targetWords =? 0)%nat then ret (alert NO_ERRORS_MESSAGE st)
    else ret (setView DICTATION (setSessionWords targetWords st))
  else ret (setView DICTATION (setSessionWords groupWords st)).

(** ** components/DictationSession.tsx *)

(** The play queue built when the session component mounts. *)
Definition initQueue (ws : list WordItem) (cfg : DictationSettings)
    : M (list WordItem) :=
  let queue := ws in
  match order cfg with
  | REVERSE => ret (rev queue)
  | SHUFFLE =>
      Array_sort
        (fun _ _ => r <- Math_random ;; ret (Float64.sub r Float64.lit_0_5))
        queue
  | SEQUENTIAL => ret queue
  end.

(** ** Data model *)

(** The invariants the specification states for a word record: the ease
    factor is at least 1.3, streak and interval are non-negative integers
    (the interval a safe one, below 2^53), and the attempt counters are
    present with [totalAttempts >= totalWrong >= 0]. *)
Definition DataModel (r : WordItem) : Prop :=
  Float64.geb (easeFactor r) Float64.lit_1_3 = true /\
  0 <= streak r /\
  0 <= interval r < 2 ^ 53 /\
  exists attempts wrong,
    totalAttempts r = Some attempts /\ totalWrong r = Some wrong /\
    0 <= wrong <= attempts.

(** ** Orderings of a selection *)

(** The comparator [(a, b) => key(b) - key(a)]: largest key first. *)
Definition descendingBy {A : Type} (key : A -> spec_float) (a b : A)
    : spec_float :=
  Float64.sub (key b) (key a).

(** [a] may stand before [b] in that order. *)
Definition dominates {A : Type} (key : A -> spec_float) (a b : A) : Prop :=
  Float64.le (key b) (key a).

(** The elements of [l] whose key is [k], in the order of [l]. *)
Definition withKey {A : Type} (key : A -> spec_float) (k : spec_float)
    (l : list A) : list A :=
  filter (fun x => Float64.eqvb (key x) k) l.

(** Scores never increase along the list. *)
Definition Descending (now : Z) (l : list WordItem) : Prop :=
  StronglySorted (dominates (score now)) l.

(** Words of equal score appear in [l'] in the order they have in [l]. *)
Definition TiesInOrderOf (now : Z) (l l' : list WordItem) : Prop :=
  forall k, withKey (score now) k l' = withKey (score now) k l.

(** ** Cross-check of the binary64 product against the exact one *)

(** [Math.round(n * 1.3)] in binary64 is the exact product, rounded. *)
Definition agrees (n : Z) : bool :=
  Float64.Math_round (Float64.mul (Float64.of_Z n) Float64.lit_1_3)
  =? exact_round (inject_Z n * 1.3).

Fixpoint agrees_below (k : nat) : bool :=
  match k with
  | O => true
  | S k' => agrees (Z.of_nat k') && agrees_below k'
  end.

Definition checked_days : nat := 3651.

(** ** Sample data

    Concrete worlds, words and application states the statements below are
    run on. *)

Definition sample_now : Z := 1700000000000.

Definition sample_world : World := {|
  clock := fun n => sample_now + Z.of_nat n;
  reads := 0;
  random := fun n =>
    if Nat.even n then S754_finite false 4503599627370496 (-54)   (* 0.25 *)
    else S754_finite false 6755399441055744 (-53);                (* 0.75 *)
  draws := 0
|}.

Definition sample_word : WordItem :=
  newWordItem "word-1" "abandon" "SAT" sample_now.

(** The sample word after it was marked as mastered: interval 30. *)
Definition sample_mastered : WordItem :=
  fst (updateWordStatus sample_word MASTERED sample_word sample_world).

(** A word that was answered wrong [wrong] times, the last time at
    [lastWrong]. *)
Definition withHistory (uuid : string) (wrong : Z) (lastWrong : Z) : WordItem := {|
  id := uuid;
  text := uuid;
  groupTitle := Some "SAT"%string;
  addedAt := 1690000000000;
  lastReviewed := Some lastWrong;
  nextReview := lastWrong;
  streak := 0;
  easeFactor := Float64.lit_2_5;
  interval := 0;
  totalAttempts := Some (wrong + 1);
  totalWrong := Some wrong;
  lastWrongAt := Timestamp lastWrong
|}.

Definition sample_A : WordItem := withHistory "A" 3 (sample_now - ONE_DAY).
Definition sample_B : WordItem := withHistory "B" 1 (sample_now - 10 * ONE_DAY).

Definition sample_app : App := {|
  view := DASHBOARD;
  words := [sample_A; sample_word; sample_B];
  sessionWords := [];
  settings := DEFAULT_SETTINGS;
  alerts := []
|}.

(** Fifteen words with history; word [i] scores [3 * i]. *)
Definition fifteen_candidates : list WordItem :=
  map (fun i => withHistory (String (ascii_of_nat (64 + i)) EmptyString)
                  (Z.of_nat i) (sample_now - Z.of_nat i * ONE_DAY))
      (seq 1 15).

Definition fifteen_app : App := {|
  view := DASHBOARD;
  words := sample_word :: fifteen_candidates;
  sessionWords := [];
  settings := DEFAULT_SETTINGS;
  alerts := []
|}.

Definition withEaseFactor (e : spec_float) (r : WordItem) : WordItem := {|
  id := id r; text := text r; groupTitle := groupTitle r; addedAt := addedAt r;
  lastReviewed := lastReviewed r; nextReview := nextReview r;
  streak := streak r; easeFactor := e; interval := interval r;
  totalAttempts := totalAttempts r; totalWrong := totalWrong r;
  lastWrongAt := lastWrongAt r
|}.

Definition withOrder (o : PlaybackOrder) (cfg : DictationSettings)
    : DictationSettings := {|
  voice := voice cfg; intervalSeconds := intervalSeconds cfg; order := o;
  autoRepeat := autoRepeat cfg; maxReviewBatchSize := maxReviewBatchSize cfg;
  silenceThreshold := silenceThreshold cfg
|}.

(** * More of App.tsx *)

(** ** Correction pass *)

(** One line of the correction pass, [{ id, correct }]. *)
Record CorrectionResult := {
  result_id : string;
  result_correct : bool
}.

(** [results.find(r => r.id === word.id)] *)
Definition findResult (results : list CorrectionResult) (word : WordItem)
    : option CorrectionResult :=
  find (fun r => String.eqb (result_id r) (id word)) results.

(** The callback [handleCorrectionFinish] maps over the words. *)
Definition applyResult (results : list CorrectionResult) (word : WordItem)
    : M WordItem :=
  match findResult results word with
  | Some result => calculateNextReview word (result_correct result)
  | None => ret word
  end.

Definition handleCorrectionFinish (results : list CorrectionResult) (st : App)
    : M App :=
  updatedWords <- mapM (applyResult results) (words st) ;;
  ret (setView DASHBOARD (setWords updatedWords st)).

(** [actualWords && actualWords.length > 0] guards the replacement of the
    session words; [None] is a call without argument. *)
Definition handleDictationComplete (actualWords : option (list WordItem))
    (st : App) : App :=
  let st1 :=
    match actualWords with
    | Some (w :: ws) => setSessionWords (w :: ws) st
    | _ => st
    end in
  setView CORRECTION st1.

(** [w.streak > 3]: the word counts as mastered on the dashboard. *)
Definition isLearned (w : WordItem) : bool := streak w >? 3.

Definition totalLearned (st : App) : nat :=
  List.length (filter isLearned (words st)).

(** The number of words of [l] before position [i] that have a result, each
    of which reads the clock once. *)
Definition correctedBefore (results : list CorrectionResult)
    (l : list WordItem) (i : nat) : nat :=
  List.length
    (filter (fun x => match findResult results x with
                      | Some _ => true
                      | None => false
                      end)
       (firstn i l)).

(** The fields of a word no scheduling step writes. *)
Definition identity (w : WordItem) : string * string * option string * Z :=
  (id w, text w, groupTitle w, addedAt w).

(** [w'] is [w] after some more readings of the clock. *)
Definition later (w w' : World) : Prop :=
  clock w' = clock w /\ random w' = random w /\ draws w' = draws w /\
  (reads w <= reads w')%nat.

(** ** Word groups *)

Definition DEFAULT_GROUP : string := "默认词库".

(** [w.groupTitle || '默认词库']: a missing and an empty title both stand for
    the default group. *)
Definition titleOf (w : WordItem) : string :=
  match groupTitle w with
  | Some t => if String.eqb t "" then DEFAULT_GROUP else t
  | None => DEFAULT_GROUP
  end.

(** [{ ...existingWord, groupTitle: title }] *)
Definition withGroupTitle (title : string) (w : WordItem) : WordItem := {|
  id := id w; text := text w; groupTitle := Some title; addedAt := addedAt w;
  lastReviewed := lastReviewed w; nextReview := nextReview w;
  streak := streak w; easeFactor := easeFactor w; interval := interval w;
  totalAttempts := totalAttempts w; totalWrong := totalWrong w;
  lastWrongAt := lastWrongAt w
|}.

(** The application state together with the title of the group in the
    editor, [null] when a new group is being entered. *)
Record Editor := {
  app : App;
  editingGroupTitle : option string
}.

(** The [forEach] of the edit mode.  [uuidv4 k] is what the [k]-th call of
    [uuidv4()] in this handler returns, and [calls] counts the calls made so
    far. *)
Fixpoint mergeWords (uuidv4 : nat -> string) (calls : nat)
    (oldGroupWords : list WordItem) (title : string) (now : Z)
    (inputWords : list string) : list WordItem :=
  match inputWords with
  | [] => []
  | txt :: rest =>
      match find (fun w => String.eqb (text w) txt) oldGroupWords with
      | Some existingWord =>
          withGroupTitle title existingWord
          :: mergeWords uuidv4 calls oldGroupWords title now rest
      | None =>
          newWordItem (uuidv4 calls) txt title now
          :: mergeWords uuidv4 (S calls) oldGroupWords title now rest
      end
  end.

(** The [map] of the create mode. *)
Fixpoint newItems (uuidv4 : nat -> string) (calls : nat) (title : string)
    (now : Z) (inputWords : list string) : list WordItem :=
  match inputWords with
  | [] => []
  | txt :: rest =>
      newWordItem (uuidv4 calls) txt title now
      :: newItems uuidv4 (S calls) title now rest
  end.

Definition handleSaveWords (uuidv4 : nat -> string)
    (inputWords : list string) (title : string) (ed : Editor) : M Editor :=
  now <- Date_now ;;
  let st := app ed in
  match editingGroupTitle ed with
  | Some (String c s as editing) =>
      let otherWords :=
        filter (fun w => negb (String.eqb (titleOf w) editing)) (words st) in
      let oldGroupWords :=
        filter (fun w => String.eqb (titleOf w) editing) (words st) in
      let mergedWords :=
        mergeWords uuidv4 0 oldGroupWords title now inputWords in
      ret {| app := setView DASHBOARD (setWords (otherWords ++ mergedWords) st);
             editingGroupTitle := None |}
  | _ =>
      let items := newItems uuidv4 0 title now inputWords in
      let updatedWords := words st ++ items in
      ret {| app := setView DICTATION
                      (setSessionWords items (setWords updatedWords st));
             editingGroupTitle := editingGroupTitle ed |}
  end.

(** [confirmed] is the answer to the [window.confirm] dialog. *)
Definition handleDeleteWord (confirmed : bool) (targetWord : WordItem)
    (st : App) : App :=
  if confirmed
  then setWords
         (filter (fun w => negb (String.eqb (id w) (id targetWord))) (words st))
         st
  else st.

Definition handleDeleteGroup (confirmed : bool) (title : string) (st : App)
    : App :=
  if confirmed
  then setWords
         (filter (fun w => negb (String.eqb (titleOf w) title)) (words st)) st
  else st.

(** The number of input words before position [i] that are new to the group,
    each of which takes one id. *)
Definition newBefore (oldGroupWords : list WordItem)
    (inputWords : list string) (i : nat) : nat :=
  List.length
    (filter (fun txt =>
               match find (fun w => String.eqb (text w) txt) oldGroupWords with
               | Some _ => false
               | None => true
               end)
       (firstn i inputWords)).

(** ** More of components/DictationSession.tsx *)

(** [playQueue.slice(0, currentIndex + 1)] handed to [onComplete], which is
    [handleDictationComplete]. *)
Definition handleFinishEarly (playQueue : list WordItem) (currentIndex : nat)
    (st : App) : App :=
  let playedWords := slice0 playQueue (Z.of_nat currentIndex + 1) in
  handleDictationComplete (Some playedWords) st.

(** ** The correction view *)

(** A [Record<string, boolean>]: the own properties of the object, each key
    once. *)
Definition Results := list (string * bool).

(** [results[id]] *)
Fixpoint Object_get (k : string) (o : Results) : option bool :=
  match o with
  | [] => None
  | (k', v) :: o' => if String.eqb k' k then Some v else Object_get k o'
  end.

(** An assignment [o[k] = v]: an existing property keeps its place, a new one
    is added. *)
Fixpoint Object_set (k : string) (v : bool) (o : Results) : Results :=
  match o with
  | [] => [(k, v)]
  | (k', v') :: o' =>
      if String.eqb k' k then (k', v) :: o' else (k', v') :: Object_set k v o'
  end.

Definition Object_fromEntries (entries : list (string * bool)) : Results :=
  fold_left (fun o e => Object_set (fst e) (snd e) o) entries [].

(** The initial state of the view: every word of the session is marked
    correct. *)
Definition initialResults (ws : list WordItem) : Results :=
  Object_fromEntries (map (fun w => (id w, true)) ws).

(** [{ ...prev, [id]: status }] *)
Definition setStatus (i : string) (status : bool) (prev : Results) : Results :=
  Object_set i status prev.

Definition setAll (ws : list WordItem) (correct : bool) : Results :=
  Object_fromEntries (map (fun w => (id w, correct)) ws).

(** What the user does in the view before finishing. *)
Inductive Mark :=
| MarkOne (i : string) (status : bool)
| MarkAll (correct : bool).

Definition mark (ws : list WordItem) (results : Results) (m : Mark) : Results :=
  match m with
  | MarkOne i status => setStatus i status results
  | MarkAll correct => setAll ws correct
  end.

Definition marked (ws : list WordItem) (marks : list Mark) : Results :=
  fold_left (mark ws) marks (initialResults ws).

(** [Object.entries(results).map(([id, correct]) => ({ id, correct }))] for
    the entries in the order [entries].  [Object.entries] lists the
    properties of the object, integer-like keys first; [handleFinish] below
    allows any order. *)
Definition finalResults (entries : list (string * bool))
    : list CorrectionResult :=
  map (fun e => {| result_id := fst e; result_correct := snd e |}) entries.

(** [handleFinish] calls [onFinish], which is [handleCorrectionFinish], with
    the entries of the results. *)
Definition handleFinish (entries : list (string * bool)) (st : App) : M App :=
  handleCorrectionFinish (finalResults entries) st.

(** ** The reminder *)

Inductive NotificationPermission := default | denied | granted.

(** [lastNotificationTimeRef] and the calls of [sendNotification] made so
    far, latest first, each with the time of the call and the number of due
    words it reports. *)
Record Reminder := {
  lastNotificationTime : Z;
  notifications : list (Z * nat)
}.

Definition ONE_HOUR : Z := 60 * 60 * 1000.

(** One run of the callback of [setInterval]; [permission] and [hidden] are
    what the browser reports at that moment, [ws] the words the effect was
    set up with. *)
Definition checkReminder (permission : NotificationPermission) (hidden : bool)
    (ws : list WordItem) (r : Reminder) : M Reminder :=
  match permission with
  | granted =>
      if negb hidden then ret r
      else
        now <- Date_now ;;
        if now - lastNotificationTime r <? ONE_HOUR then ret r
        else
          let dueCount := List.length (filter (isDue now) ws) in
          if (0 <? dueCount)%nat
          then ret {| lastNotificationTime := now;
                      notifications := (now, dueCount) :: notifications r |}
          else ret r
  | _ => ret r
  end.

(** The state of the reminder when the application starts. *)
Definition initialReminder : Reminder :=
  {| lastNotificationTime := 0; notifications := [] |}.

(** A run of checks, one per minute of the [setInterval]. *)
Fixpoint checkReminders
    (events : list (NotificationPermission * bool * list WordItem))
    (r : Reminder) : M Reminder :=
  match events with
  | [] => ret r
  | (permission, hidden, ws) :: rest =>
      r1 <- checkReminder permission hidden ws r ;;
      checkReminders rest r1
  end.

(** Neighbouring notifications are at least [gap] apart. *)
Fixpoint spaced (gap : Z) (log : list (Z * nat)) : Prop :=
  match log with
  | (t2, _) :: (((t1, _) :: _) as older) => gap <= t2 - t1 /\ spaced gap older
  | _ => True
  end.

(** The entry reports the due words, at least one, of one of the checks,
    which ran with permission while the page was hidden. *)
Definition reminded
    (events : list (NotificationPermission * bool * list WordItem))
    (entry : Z * nat) : Prop :=
  exists ws,
    In (granted, true, ws) events /\
    snd entry = List.length (filter (isDue (fst entry)) ws) /\
    (0 < snd entry)%nat.

(** The log is spaced, and the time of its latest entry is the one the
    throttle compares with. *)
Definition throttled (r : Reminder) : Prop :=
  spaced ONE_HOUR (notifications r) /\
  match notifications r with
  | (t, _) :: _ => lastNotificationTime r = t
  | [] => True
  end.

(** ** More of services/storageService.ts *)

(** [Math.min(x, y)]: NaN when either argument is NaN, and [-0] is smaller
    than [+0]. *)
Definition Math_min (x y : spec_float) : spec_float :=
  match SFcompare x y with
  | None => S754_nan
  | Some Lt => x
  | Some Gt => y
  | Some Eq => match x with S754_zero false => y | _ => x end
  end.

Definition clamp (value min max : spec_float) : spec_float :=
  Math_min max (Float64.Math_max min value).

(** ** More samples *)

(** The sample application during a session on its second word. *)
Definition sample_session : App := setSessionWords [sample_word] sample_app.

(** The editor on the group of the sample words, and on a new group. *)
Definition sample_editor : Editor :=
  {| app := sample_app; editingGroupTitle := Some "SAT"%string |}.

Definition sample_creator : Editor :=
  {| app := sample_app; editingGroupTitle := None |}.

(** Ids [uuid-0], [uuid-1], ... for the calls of [uuidv4()]. *)
Definition sample_uuidv4 (k : nat) : string :=
  String.append "uuid-" (String (ascii_of_nat (48 + k)) EmptyString).
(** * Properties *)

(** ** Binary64 arithmetic *)

Module Float64Facts.
Import Float64.

(** *** Results are never NaN *)

Lemma shr_1_nonneg mrs : 0 <= shr_m mrs -> 0 <= shr_m (shr_1 mrs).
Proof.
  destruct mrs as [m r s]; simpl.
  destruct m as [|p|p]; [simpl; lia| |lia].
  destruct p; simpl; lia.
Qed.

Lemma iter_shr_1_nonneg p : forall mrs,
  0 <= shr_m mrs -> 0 <= shr_m (iter_pos shr_1 p mrs).
Proof.
  induction p as [p IH|p IH|]; intros mrs H; simpl.
  - apply IH, IH, shr_1_nonneg, H.
  - apply IH, IH, H.
  - apply shr_1_nonneg, H.
Qed.

Lemma shr_nonneg mrs e n : 0 <= shr_m mrs -> 0 <= shr_m (fst (shr mrs e n)).
Proof.
  intros H. destruct n; simpl; auto using iter_shr_1_nonneg.
Qed.

Lemma shr_record_of_loc_m m l : shr_m (shr_record_of_loc m l) = m.
Proof. destruct l as [|[]]; reflexivity. Qed.

Lemma shr_fexp_nonneg m e l :
  0 <= m -> 0 <= shr_m (fst (shr_fexp prec emax m e l)).
Proof.
  intros H. unfold shr_fexp. apply shr_nonneg.
  now rewrite shr_record_of_loc_m.
Qed.

Lemma round_nearest_even_nonneg m l : 0 <= m -> 0 <= round_nearest_even m l.
Proof.
  intros H. destruct l as [|[]]; simpl; try lia.
  destruct (Z.even m); lia.
Qed.

Lemma binary_round_aux_not_nan s m e l :
  0 <= m -> is_nan (binary_round_aux prec emax s m e l) = false.
Proof.
  intros H. unfold binary_round_aux.
  pose proof (shr_fexp_nonneg m e l H) as H1.
  destruct (shr_fexp prec emax m e l) as [mrs' e']; simpl in H1.
  pose proof (shr_fexp_nonneg _ e' loc_Exact
                (round_nearest_even_nonneg _ (loc_of_shr_record mrs') H1)) as H2.
  destruct (shr_fexp prec emax _ e' loc_Exact) as [mrs'' e'']; simpl in H2.
  destruct (shr_m mrs'') as [|p|p]; [reflexivity| |lia].
  destruct (e'' <=? emax - prec); reflexivity.
Qed.

Lemma binary_normalize_not_nan m e s :
  is_nan (binary_normalize prec emax m e s) = false.
Proof.
  destruct m as [|p|p]; simpl; [reflexivity| |];
    unfold binary_round;
    destruct (shl_align _ _ _) as [mz ez];
    apply binary_round_aux_not_nan; lia.
Qed.

(** A number at least 1.3 is a positive finite value or [+Infinity]. *)
Lemma geb_lit_1_3_inv x :
  geb x lit_1_3 = true ->
  x = S754_infinity false \/ exists m e, x = S754_finite false m e.
Proof.
  unfold geb, SFleb, lit_1_3.
  destruct x as [s|[]| |[] m e]; simpl; try discriminate; eauto.
Qed.

Lemma add_not_nan x :
  geb x lit_1_3 = true -> is_nan (add x lit_0_1) = false.
Proof.
  intros H. destruct (geb_lit_1_3_inv x H) as [->|(m & e & ->)].
  - reflexivity.
  - unfold add, lit_0_1, SFadd. apply binary_normalize_not_nan.
Qed.

Lemma sub_not_nan x :
  geb x lit_1_3 = true -> is_nan (sub x lit_0_2) = false.
Proof.
  intros H. destruct (geb_lit_1_3_inv x H) as [->|(m & e & ->)].
  - reflexivity.
  - unfold sub, lit_0_2, SFsub. apply binary_normalize_not_nan.
Qed.

Lemma Math_max_lit_1_3_geb y :
  is_nan y = false -> geb (Math_max lit_1_3 y) lit_1_3 = true.
Proof.
  intros H. unfold Math_max, geb, SFleb.
  destruct (SFcompare lit_1_3 y) as [[]|] eqn:E.
  - reflexivity.
  - now rewrite E.
  - reflexivity.
  - destruct y as [s|s| |s m e]; try discriminate; destruct s; discriminate.
Qed.

(** *** Right shifts *)

Lemma shr_1_m mrs : 0 <= shr_m mrs -> shr_m (shr_1 mrs) = shr_m mrs / 2.
Proof.
  destruct mrs as [m r s]; cbn [shr_m]. intros H.
  destruct m as [|p|p]; [reflexivity| |lia].
  destruct p as [p|p|]; cbn [shr_1 shr_m].
  - change (Z.pos p~1) with (2 * Z.pos p + 1). apply Z.div_unique with 1; lia.
  - change (Z.pos p~0) with (2 * Z.pos p). apply Z.div_unique with 0; lia.
  - reflexivity.
Qed.

Lemma pow2_xO p : 2 ^ Z.pos p~0 = 2 ^ Z.pos p * 2 ^ Z.pos p.
Proof.
  change (Z.pos p~0) with (2 * Z.pos p).
  rewrite <- Z.pow_add_r by lia. f_equal. lia.
Qed.

Lemma pow2_xI p : 2 ^ Z.pos p~1 = 2 * (2 ^ Z.pos p * 2 ^ Z.pos p).
Proof.
  change (Z.pos p~1) with (2 * Z.pos p + 1).
  replace (2 * Z.pos p + 1) with (1 + (Z.pos p + Z.pos p)) by lia.
  rewrite !Z.pow_add_r by lia. reflexivity.
Qed.

Lemma iter_shr_1_m p : forall mrs,
  0 <= shr_m mrs -> shr_m (iter_pos shr_1 p mrs) = shr_m mrs / 2 ^ Z.pos p.
Proof.
  assert (forall q, 0 < 2 ^ Z.pos q) as P by (intros; apply Z.pow_pos_nonneg; lia).
  induction p as [p IH|p IH|]; intros mrs H; cbn [iter_pos].
  - assert (0 <= shr_m (shr_1 mrs)) as H1
      by (rewrite shr_1_m by exact H; apply Z.div_pos; lia).
    assert (0 <= shr_m (iter_pos shr_1 p (shr_1 mrs))) as H2
      by (rewrite IH by exact H1; apply Z.div_pos; [lia|apply P]).
    rewrite IH by exact H2. rewrite IH by exact H1. rewrite shr_1_m by exact H.
    pose proof (P p).
    rewrite !Z.div_div by lia. now rewrite pow2_xI, Z.mul_assoc.
  - assert (0 <= shr_m (iter_pos shr_1 p mrs)) as H2
      by (rewrite IH by exact H; apply Z.div_pos; [lia|apply P]).
    rewrite IH by exact H2. rewrite IH by exact H.
    pose proof (P p).
    rewrite Z.div_div by lia. now rewrite pow2_xO.
  - rewrite shr_1_m by exact H. reflexivity.
Qed.

Lemma digits2_pos_lower p : 2 ^ (Z.pos (digits2_pos p) - 1) <= Z.pos p.
Proof.
  induction p as [p IH|p IH|]; cbn [digits2_pos].
  - rewrite Pos2Z.inj_succ. change (Z.pos p~1) with (2 * Z.pos p + 1).
    replace (Z.succ (Z.pos (digits2_pos p)) - 1)
      with (Z.succ (Z.pos (digits2_pos p) - 1)) by lia.
    rewrite Z.pow_succ_r by lia.
    set (k := 2 ^ (Z.pos (digits2_pos p) - 1)) in *. clearbody k. lia.
  - rewrite Pos2Z.inj_succ. change (Z.pos p~0) with (2 * Z.pos p).
    replace (Z.succ (Z.pos (digits2_pos p)) - 1)
      with (Z.succ (Z.pos (digits2_pos p) - 1)) by lia.
    rewrite Z.pow_succ_r by lia.
    set (k := 2 ^ (Z.pos (digits2_pos p) - 1)) in *. clearbody k. lia.
  - reflexivity.
Qed.

Lemma digits2_pos_upper p : Z.pos p < 2 ^ Z.pos (digits2_pos p).
Proof.
  induction p as [p IH|p IH|]; cbn [digits2_pos].
  - rewrite Pos2Z.inj_succ, Z.pow_succ_r by lia.
    change (Z.pos p~1) with (2 * Z.pos p + 1).
    set (k := 2 ^ Z.pos (digits2_pos p)) in *. clearbody k. lia.
  - rewrite Pos2Z.inj_succ, Z.pow_succ_r by lia.
    change (Z.pos p~0) with (2 * Z.pos p).
    set (k := 2 ^ Z.pos (digits2_pos p)) in *. clearbody k. lia.
  - reflexivity.
Qed.

Lemma fexp_emin e : emin <= fexp prec emax e.
Proof. unfold fexp. apply Z.le_max_r. Qed.

(** *** Exponent and sign of a rounded result *)

Lemma shr_fexp_exponent m e l :
  emin <= snd (shr_fexp prec emax m e l).
Proof.
  unfold shr_fexp, shr.
  pose proof (fexp_emin (Zdigits2 m + e)) as F.
  destruct (fexp prec emax (Zdigits2 m + e) - e) eqn:E; cbn [snd]; lia.
Qed.

Lemma shr_fexp_positive m e l :
  0 < m -> emin <= e -> 0 < shr_m (fst (shr_fexp prec emax m e l)).
Proof.
  intros Hm He. unfold shr_fexp, shr.
  destruct (fexp prec emax (Zdigits2 m + e) - e) as [|n|n] eqn:E; cbn [fst];
    try (rewrite shr_record_of_loc_m; exact Hm).
  rewrite iter_shr_1_m by (rewrite shr_record_of_loc_m; lia).
  rewrite shr_record_of_loc_m.
  destruct m as [|p|p]; try lia. cbn [Zdigits2] in E.
  pose proof (digits2_pos_lower p) as L.
  assert (Z.pos n = Z.pos (digits2_pos p) - prec) as N.
  { unfold fexp in E. fold emin in E. unfold prec in *. lia. }
  apply Z.div_str_pos. split; [apply Z.pow_pos_nonneg; lia|].
  etransitivity; [|exact L]. apply Z.pow_le_mono_r; unfold prec in N; lia.
Qed.

Lemma binary_round_aux_regular s m e l :
  0 <= m -> regular (binary_round_aux prec emax s m e l) = true.
Proof.
  intros H. unfold binary_round_aux.
  pose proof (shr_fexp_nonneg m e l H) as H1.
  destruct (shr_fexp prec emax m e l) as [mrs' e']; cbn [fst] in H1.
  pose proof (shr_fexp_nonneg _ e' loc_Exact
                (round_nearest_even_nonneg _ (loc_of_shr_record mrs') H1)) as H2.
  pose proof (shr_fexp_exponent
                (round_nearest_even (shr_m mrs') (loc_of_shr_record mrs'))
                e' loc_Exact) as H3.
  destruct (shr_fexp prec emax _ e' loc_Exact) as [mrs'' e''];
    cbn [fst snd] in H2, H3.
  destruct (shr_m mrs'') as [|p|p]; [reflexivity| |lia].
  destruct (e'' <=? emax - prec); [|reflexivity].
  cbn [regular]. now apply Z.leb_le.
Qed.

Lemma round_nearest_even_ge m l : m <= round_nearest_even m l.
Proof.
  destruct l as [|[]]; cbn [round_nearest_even]; try lia.
  destruct (Z.even m); lia.
Qed.

Lemma binary_round_aux_signed s m e l :
  0 < m -> emin <= e -> signed s (binary_round_aux prec emax s m e l).
Proof.
  intros Hm He. unfold binary_round_aux.
  pose proof (shr_fexp_positive m e l Hm He) as H1.
  pose proof (shr_fexp_exponent m e l) as E1.
  destruct (shr_fexp prec emax m e l) as [mrs' e']; cbn [fst snd] in H1, E1.
  pose proof (round_nearest_even_ge (shr_m mrs') (loc_of_shr_record mrs')) as G.
  assert (0 < round_nearest_even (shr_m mrs') (loc_of_shr_record mrs')) as P by lia.
  pose proof (shr_fexp_positive _ e' loc_Exact P E1) as H2.
  destruct (shr_fexp prec emax _ e' loc_Exact) as [mrs'' e'']; cbn [fst] in H2.
  destruct (shr_m mrs'') as [|p|p]; [lia| |lia].
  destruct (e'' <=? emax - prec); reflexivity.
Qed.

Lemma binary_round_signed s p e :
  emin <= e -> signed s (binary_round prec emax s p e).
Proof.
  intros He. unfold binary_round, shl_align.
  pose proof (fexp_emin (Z.pos (digits2_pos p) + e)) as F.
  destruct (fexp prec emax (Z.pos (digits2_pos p) + e) - e) eqn:E;
    apply binary_round_aux_signed; lia.
Qed.

Lemma binary_round_regular s p e :
  regular (binary_round prec emax s p e) = true.
Proof.
  unfold binary_round. destruct (shl_align _ _ _) as [mz ez].
  apply binary_round_aux_regular. lia.
Qed.

Lemma binary_normalize_regular m e s :
  regular (binary_normalize prec emax m e s) = true.
Proof.
  destruct m; cbn [binary_normalize]; [reflexivity| |];
    apply binary_round_regular.
Qed.

Lemma gt0_signed s x : signed s x -> gt0 x = negb s.
Proof.
  destruct x as [| | |]; cbn [signed]; try contradiction;
    intros ->; now destruct s.
Qed.

(** The sign of a normalised integer is the sign of the integer. *)
Lemma binary_normalize_gt0 m e :
  emin <= e -> gt0 (binary_normalize prec emax m e false) = (0 <? m).
Proof.
  intros He.
  destruct m as [|p|p]; cbn [binary_normalize]; [reflexivity| |].
  - now rewrite (gt0_signed false) by now apply binary_round_signed.
  - now rewrite (gt0_signed true) by now apply binary_round_signed.
Qed.

(** *** Alignment *)

Lemma iter_xO m d : Z.pos (Pos.iter xO m d) = Z.pos m * 2 ^ Z.pos d.
Proof.
  revert m. induction d as [|d IH] using Pos.peano_ind; intros m.
  - cbn [Pos.iter]. change (2 ^ 1) with 2. lia.
  - rewrite Pos.iter_succ, Pos2Z.inj_succ, Z.pow_succ_r by lia.
    change (Z.pos (Pos.iter xO m d)~0) with (2 * Z.pos (Pos.iter xO m d)).
    rewrite IH. lia.
Qed.

Lemma shl_align_fst m e e' :
  e' <= e -> Z.pos (fst (shl_align m e e')) = Z.pos m * 2 ^ (e - e').
Proof.
  intros H. unfold shl_align.
  destruct (e' - e) as [|d|d] eqn:E; cbn [fst].
  - replace (e - e') with 0 by lia. lia.
  - lia.
  - rewrite iter_xO. f_equal. f_equal. lia.
Qed.

(** *** Order of values *)

Lemma compare_antisym x y : compare y x = CompOpp (compare x y).
Proof.
  unfold compare. rewrite (Z.compare_antisym (class x) (class y)).
  destruct (class x ?= class y); cbn [CompOpp]; try reflexivity.
  apply Z.compare_antisym.
Qed.

Lemma compare_refl x : compare x x = Eq.
Proof. unfold compare. now rewrite !Z.compare_refl. Qed.

Lemma compare_Gt_spec x y :
  compare x y = Gt <->
  class y < class x \/ (class x = class y /\ scaled y < scaled x).
Proof.
  unfold compare.
  destruct (Z.compare_spec (class x) (class y)) as [E|L|G].
  - rewrite Z.compare_gt_iff. split; [intros H; right; split; assumption|].
    intros [H|[_ H]]; [lia|exact H].
  - split; [discriminate|lia].
  - split; [left; exact G|reflexivity].
Qed.

Lemma compare_Eq_spec x y :
  compare x y = Eq <-> class x = class y /\ scaled x = scaled y.
Proof.
  unfold compare.
  destruct (Z.compare_spec (class x) (class y)) as [E|L|G].
  - rewrite Z.compare_eq_iff. tauto.
  - split; [discriminate|lia].
  - split; [discriminate|lia].
Qed.

Lemma le_spec x y :
  le x y <->
  class x < class y \/ (class x = class y /\ scaled x <= scaled y).
Proof.
  unfold le. rewrite compare_Gt_spec. lia.
Qed.

Lemma le_refl x : le x x.
Proof. apply le_spec. lia. Qed.

Lemma le_trans x y z : le x y -> le y z -> le x z.
Proof. rewrite !le_spec. lia. Qed.

Lemma le_total x y : le x y \/ le y x.
Proof. rewrite !le_spec. lia. Qed.

Lemma eqvb_true x y :
  eqvb x y = true <-> class x = class y /\ scaled x = scaled y.
Proof.
  rewrite <- compare_Eq_spec. unfold eqvb.
  destruct (compare x y); split; congruence.
Qed.

Lemma cond_Zopp_mul s a b : cond_Zopp s a * b = cond_Zopp s (a * b).
Proof. destruct s; cbn [cond_Zopp]; lia. Qed.

Lemma scaled_finite_pos m e : emin <= e -> 0 < scaled (S754_finite false m e).
Proof.
  intros H. cbn [scaled cond_Zopp].
  apply Z.mul_pos_pos; [lia|apply Z.pow_pos_nonneg; lia].
Qed.

Lemma scaled_finite_neg m e : emin <= e -> scaled (S754_finite true m e) < 0.
Proof.
  intros H. cbn [scaled cond_Zopp].
  apply Z.mul_neg_pos; [lia|apply Z.pow_pos_nonneg; lia].
Qed.

(** The integer a finite number contributes to a sum at exponent [ez]. *)
Lemma aligned_scaled s m e ez :
  emin <= ez -> ez <= e ->
  cond_Zopp s (Z.pos (fst (shl_align m e ez))) * 2 ^ (ez - emin)
  = scaled (S754_finite s m e).
Proof.
  intros H1 H2. rewrite shl_align_fst by exact H2.
  rewrite cond_Zopp_mul. cbn [scaled]. rewrite cond_Zopp_mul.
  f_equal. rewrite <- Z.mul_assoc, <- Z.pow_add_r by lia.
  f_equal. f_equal. lia.
Qed.

(** The comparator result [x - y] is positive exactly when the value of [x] is
    above the value of [y]. *)
Lemma sub_gt0 x y :
  regular x = true -> regular y = true ->
  (gt0 (sub x y) = true <-> compare x y = Gt).
Proof.
  intros Rx Ry. rewrite compare_Gt_spec.
  destruct x as [sx|sx| |sx mx ex]; try discriminate Rx;
    destruct y as [sy|sy| |sy my ey]; try discriminate Ry;
    cbn [regular] in Rx, Ry; try apply Z.leb_le in Rx; try apply Z.leb_le in Ry.
  - (* zero, zero *)
    destruct sx, sy; cbn; split; (discriminate || lia).
  - destruct sx, sy; cbn; split; (discriminate || lia).
  - (* zero, finite *)
    unfold sub, SFsub. cbn [class].
    destruct sy; [pose proof (scaled_finite_neg my ey Ry)
                 |pose proof (scaled_finite_pos my ey Ry)];
      cbn [negb gt0 SFltb SFcompare scaled] in *; split;
      try discriminate; try reflexivity; try lia.
  - destruct sx, sy; cbn; split; (discriminate || lia || reflexivity).
  - destruct sx, sy; cbn; split; (discriminate || lia || reflexivity).
  - destruct sx, sy; cbn; split; (discriminate || lia || reflexivity).
  - (* finite, zero *)
    unfold sub, SFsub. cbn [class].
    destruct sx; [pose proof (scaled_finite_neg mx ex Rx)
                 |pose proof (scaled_finite_pos mx ex Rx)];
      cbn [gt0 SFltb SFcompare scaled] in *; split;
      try discriminate; try reflexivity; try lia.
  - destruct sx, sy; cbn; split; (discriminate || lia || reflexivity).
  - (* finite, finite *)
    unfold sub, SFsub. cbn [class].
    set (ez := Z.min ex ey).
    assert (emin <= ez) as Hz by (subst ez; lia).
    rewrite binary_normalize_gt0 by exact Hz.
    pose proof (aligned_scaled sx mx ex ez Hz ltac:(subst ez; lia)) as Ax.
    pose proof (aligned_scaled sy my ey ez Hz ltac:(subst ez; lia)) as Ay.
    assert (0 < 2 ^ (ez - emin)) as K by (apply Z.pow_pos_nonneg; lia).
    rewrite <- Ax, <- Ay. rewrite Z.ltb_lt.
    set (k := 2 ^ (ez - emin)) in *. clearbody k.
    set (X := cond_Zopp sx _). set (Y := cond_Zopp sy _).
    clearbody X Y. split; [intros H; right; split; [reflexivity|nia]|].
    intros [H|[_ H]]; [lia|nia].
Qed.

(** *** Conversion of integers *)

Lemma digits2_pos_iter_xO m d :
  Z.pos (digits2_pos (Pos.iter xO m d)) = Z.pos (digits2_pos m) + Z.pos d.
Proof.
  induction d as [|d IH] using Pos.peano_ind.
  - cbn [Pos.iter digits2_pos]. lia.
  - rewrite Pos.iter_succ. cbn [digits2_pos].
    rewrite !Pos2Z.inj_succ, IH. lia.
Qed.

(** A mantissa that already fits its exponent is left alone. *)
Lemma binary_round_aux_exact s m e :
  fexp prec emax (Z.pos (digits2_pos m) + e) = e -> e <= emax - prec ->
  binary_round_aux prec emax s (Z.pos m) e loc_Exact = S754_finite s m e.
Proof.
  intros F E. unfold binary_round_aux, shr_fexp.
  cbn [Zdigits2]. rewrite F, Z.sub_diag. cbn [shr shr_record_of_loc].
  cbn [shr_m loc_of_shr_record round_nearest_even Zdigits2].
  rewrite F, Z.sub_diag. cbn [shr shr_record_of_loc shr_m].
  now apply Z.leb_le in E as ->.
Qed.

Lemma of_Z_finite n :
  0 < n < 2 ^ 53 -> exists m e, of_Z n = S754_finite false m e.
Proof.
  intros [H0 H1]. destruct n as [|p|p]; try lia.
  unfold of_Z. cbn [binary_normalize]. unfold binary_round.
  pose proof (digits2_pos_lower p) as L.
  assert (Z.pos (digits2_pos p) <= 53) as D.
  { assert (Z.pos (digits2_pos p) - 1 < 53); [|lia].
    apply (Z.pow_lt_mono_r_iff 2); lia. }
  assert (fexp prec emax (Z.pos (digits2_pos p) + 0)
          = Z.pos (digits2_pos p) - 53) as F.
  { unfold fexp, SpecFloat.emin, prec, emax. lia. }
  rewrite F. unfold shl_align.
  destruct (Z.pos (digits2_pos p) - 53 - 0) as [|k|k] eqn:K; try lia.
  - rewrite binary_round_aux_exact; [eauto| |unfold emax, prec; lia].
    rewrite F. lia.
  - rewrite binary_round_aux_exact; [eauto| |unfold emax, prec; lia].
    rewrite digits2_pos_iter_xO.
    unfold fexp, SpecFloat.emin, prec, emax. lia.
Qed.

Lemma of_Z_regular n : regular (of_Z n) = true.
Proof. apply binary_normalize_regular. Qed.

Lemma of_Z_not_nan n : is_nan (of_Z n) = false.
Proof. apply binary_normalize_not_nan. Qed.

(** *** Division and addition *)

Lemma div_regular x s m e :
  is_nan x = false -> regular (div x (S754_finite s m e)) = true.
Proof.
  intros H. destruct x as [sx|sx| |sx mx ex]; try discriminate H;
    try reflexivity.
  unfold div, SFdiv, SFdiv_core_binary.
  set (m' := match _ - _ with Z.pos _ => _ | Z0 => _ | Z.neg _ => _ end).
  assert (0 <= m') as M.
  { subst m'. destruct (_ - _); try lia. apply Z.shiftl_nonneg. lia. }
  pose proof (Z_div_mod m' (Z.pos m) ltac:(lia)) as Q.
  unfold Z.div in *.
  destruct (Z.div_eucl m' (Z.pos m)) as [q r].
  apply binary_round_aux_regular.
  destruct Q as [Q R]. nia.
Qed.

Lemma add_finite_regular s m e y :
  regular (S754_finite s m e) = true -> regular y = true ->
  regular (add (S754_finite s m e) y) = true.
Proof.
  intros Rx Ry. destruct y as [sy|sy| |sy my ey]; try discriminate Ry.
  - exact Rx.
  - reflexivity.
  - unfold add, SFadd. apply binary_normalize_regular.
Qed.

Lemma round_nearest_even_le m l : round_nearest_even m l <= m + 1.
Proof.
  destruct l as [|[]]; cbn [round_nearest_even]; try lia.
  destruct (Z.even m); lia.
Qed.

Lemma digits2_pos_le p k : Z.pos p < 2 ^ k -> Z.pos (digits2_pos p) <= k.
Proof.
  intros H. pose proof (digits2_pos_lower p) as L.
  destruct (Z.le_gt_cases (Z.pos (digits2_pos p)) k) as [|G]; [assumption|].
  exfalso. assert (0 <= k) by (destruct k; try lia; cbn in H; lia).
  assert (2 ^ k <= 2 ^ (Z.pos (digits2_pos p) - 1))
    by (apply Z.pow_le_mono_r; lia).
  lia.
Qed.

Lemma digits2_pos_ge p k : 2 ^ k <= Z.pos p -> k < Z.pos (digits2_pos p).
Proof.
  intros H. pose proof (digits2_pos_upper p) as U.
  destruct (Z.lt_ge_cases k (Z.pos (digits2_pos p))) as [|G]; [assumption|].
  exfalso.
  assert (2 ^ Z.pos (digits2_pos p) <= 2 ^ k) by (apply Z.pow_le_mono_r; lia).
  lia.
Qed.

(** Rounding a mantissa of more than 53 digits keeps 52 or 53 of them. *)
Lemma binary_round_aux_large s p e l :
  53 < Z.pos (digits2_pos p) -> emin <= e ->
  e + (Z.pos (digits2_pos p) - 53) + 1 <= emax - prec ->
  exists m e',
    binary_round_aux prec emax s (Z.pos p) e l = S754_finite s m e' /\
    2 ^ 51 <= Z.pos m /\ e + (Z.pos (digits2_pos p) - 53) <= e'.
Proof.
  intros HD He Hmax. set (D := Z.pos (digits2_pos p)) in *.
  pose proof (digits2_pos_lower p) as PL. pose proof (digits2_pos_upper p) as PU.
  fold D in PL, PU.
  unfold binary_round_aux. unfold shr_fexp at 1. unfold shr at 1.
  cbn [Zdigits2]. fold D.
  assert (fexp prec emax (D + e) - e = D - 53) as F
    by (unfold fexp, SpecFloat.emin, prec, emax, emin in *;
        unfold SpecFloat.emin, prec, emax in He; lia).
  rewrite F. destruct (D - 53) as [|n|n] eqn:EN; try lia.
  set (mrs' := iter_pos shr_1 n (shr_record_of_loc (Z.pos p) l)).
  assert (shr_m mrs' = Z.pos p / 2 ^ Z.pos n) as M'.
  { subst mrs'. rewrite iter_shr_1_m by (rewrite shr_record_of_loc_m; lia).
    now rewrite shr_record_of_loc_m. }
  assert (0 < 2 ^ Z.pos n) as P2 by (apply Z.pow_pos_nonneg; lia).
  assert (2 ^ Z.pos n * 2 ^ 52 = 2 ^ (D - 1)) as E1
    by (rewrite <- Z.pow_add_r by lia; f_equal; lia).
  assert (2 ^ 53 * 2 ^ Z.pos n = 2 ^ D) as E2
    by (rewrite <- Z.pow_add_r by lia; f_equal; lia).
  assert (2 ^ 52 <= shr_m mrs' < 2 ^ 53) as B.
  { rewrite M'. split.
    - apply Z.div_le_lower_bound; [exact P2|]. rewrite E1. exact PL.
    - apply Z.div_lt_upper_bound; [exact P2|].
      rewrite Z.mul_comm, E2. exact PU. }
  pose proof (round_nearest_even_ge (shr_m mrs') (loc_of_shr_record mrs')) as RG.
  pose proof (round_nearest_even_le (shr_m mrs') (loc_of_shr_record mrs')) as RL.
  set (r := round_nearest_even (shr_m mrs') (loc_of_shr_record mrs')) in *.
  assert (2 ^ 52 <= r <= 2 ^ 53) as BR by lia.
  destruct r as [|q|q] eqn:ER; try (cbn in BR; lia).
  unfold shr_fexp, shr. cbn [Zdigits2].
  set (D2 := Z.pos (digits2_pos q)).
  assert (53 <= D2 <= 54) as BD.
  { split.
    - assert (52 < D2); [apply digits2_pos_ge; lia|lia].
    - apply digits2_pos_le. change (2 ^ 54) with (2 * 2 ^ 53). lia. }
  assert (fexp prec emax (D2 + (e + Z.pos n)) - (e + Z.pos n) = D2 - 53) as F2
    by (unfold fexp, SpecFloat.emin, prec, emax, emin in *;
        unfold SpecFloat.emin, prec, emax in He; lia).
  rewrite F2.
  destruct (D2 - 53) as [|n2|n2] eqn:EN2; try lia.
  - cbn [shr_record_of_loc shr_m].
    destruct (Z.leb_spec (e + Z.pos n) (emax - prec)); [|lia].
    exists q, (e + Z.pos n). change (2 ^ 52) with (2 * 2 ^ 51) in BR.
    repeat split; lia.
  - assert (n2 = 1%positive) as -> by lia.
    cbn [iter_pos shr_record_of_loc shr_1].
    destruct q as [q|q|]; cbn [shr_m].
    + destruct (Z.leb_spec (e + Z.pos n + 1) (emax - prec)); [|lia].
      exists q, (e + Z.pos n + 1). change (2 ^ 52) with (2 * 2 ^ 51) in BR.
      repeat split; lia.
    + destruct (Z.leb_spec (e + Z.pos n + 1) (emax - prec)); [|lia].
      exists q, (e + Z.pos n + 1). change (2 ^ 52) with (2 * 2 ^ 51) in BR.
      repeat split; lia.
    + cbn in BR. lia.
Qed.

(** A positive integer below 2^53 is represented exactly, with a mantissa of
    53 digits. *)
Lemma of_Z_exact p :
  Z.pos p < 2 ^ 53 ->
  exists m,
    of_Z (Z.pos p) = S754_finite false m (Z.pos (digits2_pos p) - 53) /\
    Z.pos m = Z.pos p * 2 ^ (53 - Z.pos (digits2_pos p)) /\
    2 ^ 52 <= Z.pos m < 2 ^ 53.
Proof.
  intros H. set (D := Z.pos (digits2_pos p)).
  pose proof (digits2_pos_lower p) as L. pose proof (digits2_pos_upper p) as U.
  pose proof (digits2_pos_le p 53 H) as D53. fold D in L, U, D53.
  assert (forall m, Z.pos m = Z.pos p * 2 ^ (53 - D) ->
                    2 ^ 52 <= Z.pos m < 2 ^ 53) as B.
  { intros m ->.
    assert (2 ^ (D - 1) * 2 ^ (53 - D) = 2 ^ 52) as E1
      by (rewrite <- Z.pow_add_r by lia; f_equal; lia).
    assert (2 ^ D * 2 ^ (53 - D) = 2 ^ 53) as E2
      by (rewrite <- Z.pow_add_r by lia; f_equal; lia).
    assert (0 < 2 ^ (53 - D)) by (apply Z.pow_pos_nonneg; lia).
    rewrite <- E1, <- E2. split.
    - apply Z.mul_le_mono_nonneg_r; lia.
    - apply Z.mul_lt_mono_pos_r; lia. }
  unfold of_Z. cbn [binary_normalize]. unfold binary_round.
  assert (fexp prec emax (D + 0) = D - 53) as F
    by (unfold fexp, SpecFloat.emin, prec, emax; lia).
  fold D. rewrite F. unfold shl_align.
  destruct (D - 53 - 0) as [|k|k] eqn:K; try lia.
  - assert (D - 53 = 0) as Z0 by lia.
    rewrite binary_round_aux_exact;
      [|fold D; rewrite F; lia|unfold emax, prec; lia].
    exists p. rewrite Z0.
    assert (Z.pos p = Z.pos p * 2 ^ (53 - D)) as E
      by (replace (53 - D) with 0 by lia; lia).
    split; [reflexivity|]. split; [exact E|]. now apply B.
  - assert (Z.pos (Pos.iter xO p k) = Z.pos p * 2 ^ (53 - D)) as E
      by (rewrite iter_xO; f_equal; f_equal; lia).
    rewrite binary_round_aux_exact; [| |unfold emax, prec; lia].
    + exists (Pos.iter xO p k). split; [reflexivity|].
      split; [exact E|]. now apply B.
    + rewrite digits2_pos_iter_xO. fold D.
      unfold fexp, SpecFloat.emin, prec, emax. lia.
Qed.

(** The rounded product of an interval above 14 is a positive number of
    days. *)
Lemma Math_round_mul_1_3_positive n :
  14 < n < 2 ^ 53 -> 0 < Math_round (mul (of_Z n) lit_1_3).
Proof.
  intros [H14 H53]. destruct n as [|p|p]; try lia.
  destruct (of_Z_exact p H53) as (m & -> & _ & Bm).
  set (D := Z.pos (digits2_pos p)).
  assert (4 <= D <= 53) as BD.
  { split; [|now apply digits2_pos_le].
    assert (3 < D); [apply digits2_pos_ge; cbn; lia|lia]. }
  unfold mul, lit_1_3, SFmul. cbn [xorb].
  set (c := 5854679515581645%positive).
  assert (2 ^ 52 <= Z.pos c < 2 ^ 53) as Bc by (cbn; lia).
  assert (2 ^ 104 <= Z.pos (m * c) < 2 ^ 106) as BM.
  { rewrite Pos2Z.inj_mul.
    change (2 ^ 104) with (2 ^ 52 * 2 ^ 52).
    change (2 ^ 106) with (2 ^ 53 * 2 ^ 53).
    split; [apply Z.mul_le_mono_nonneg; lia|apply Z.mul_lt_mono_nonneg; lia]. }
  assert (105 <= Z.pos (digits2_pos (m * c)) <= 106) as BDM.
  { split; [|apply digits2_pos_le; lia].
    assert (104 < Z.pos (digits2_pos (m * c))); [apply digits2_pos_ge|]; lia. }
  destruct (binary_round_aux_large false (m * c) (D - 53 + -52) loc_Exact)
    as (m2 & e2 & -> & Bm2 & Be2).
  - lia.
  - unfold emin, SpecFloat.emin, prec, emax. lia.
  - unfold emax, prec. lia.
  - cbn [Math_round cond_Zopp].
    destruct (Z.leb_spec 0 e2) as [P|N].
    + apply Z.mul_pos_pos; [lia|apply Z.pow_pos_nonneg; lia].
    + assert (2 ^ (- e2 + 1) <= 2 ^ 52) as P2
        by (apply Z.pow_le_mono_r; lia).
      assert (0 < 2 ^ (- e2 + 1)) as P1 by (apply Z.pow_pos_nonneg; lia).
      assert (0 < 2 ^ (- e2)) as P0 by (apply Z.pow_pos_nonneg; lia).
      change (2 ^ 52) with (2 * 2 ^ 51) in P2.
      apply Z.div_str_pos. lia.
Qed.

(** *** Agreement with the comparison of the library *)

Lemma valid_finite m e :
  valid_binary prec emax (S754_finite false m e) = true ->
  emin <= e /\
  Z.pos (digits2_pos m) <= 53 /\
  (emin < e -> Z.pos (digits2_pos m) = 53).
Proof.
  cbn [valid_binary]. unfold bounded, canonical_mantissa.
  intros H. apply andb_prop in H as [H _]. apply Z.eqb_eq in H.
  unfold emin, fexp, SpecFloat.emin, prec, emax in *. lia.
Qed.

Lemma scaled_lt_of_exponent m1 e1 m2 e2 :
  valid_binary prec emax (S754_finite false m1 e1) = true ->
  valid_binary prec emax (S754_finite false m2 e2) = true ->
  e1 < e2 ->
  Z.pos m1 * 2 ^ (e1 - emin) < Z.pos m2 * 2 ^ (e2 - emin).
Proof.
  intros V1 V2 L.
  destruct (valid_finite m1 e1 V1) as (E1 & D1 & _).
  destruct (valid_finite m2 e2 V2) as (E2 & _ & D2).
  specialize (D2 ltac:(lia)).
  pose proof (digits2_pos_upper m1) as U1.
  pose proof (digits2_pos_lower m2) as L2. rewrite D2 in L2.
  change (2 ^ (53 - 1)) with (2 ^ 52) in L2.
  assert (2 ^ Z.pos (digits2_pos m1) <= 2 ^ 53) by (apply Z.pow_le_mono_r; lia).
  assert (0 < 2 ^ (e1 - emin)) as K1 by (apply Z.pow_pos_nonneg; lia).
  assert (2 * 2 ^ (e1 - emin) <= 2 ^ (e2 - emin)) as K2.
  { rewrite <- Z.pow_succ_r by lia. apply Z.pow_le_mono_r; lia. }
  change (2 ^ 53) with (2 * 2 ^ 52) in *.
  set (a := 2 ^ (e1 - emin)) in *. set (b := 2 ^ (e2 - emin)) in *.
  clearbody a b. nia.
Qed.

Lemma compare_finite_same_sign m1 e1 m2 e2 :
  valid_binary prec emax (S754_finite false m1 e1) = true ->
  valid_binary prec emax (S754_finite false m2 e2) = true ->
  (Z.pos m1 * 2 ^ (e1 - emin) ?= Z.pos m2 * 2 ^ (e2 - emin))
  = match e1 ?= e2 with
    | Lt => Lt
    | Gt => Gt
    | Eq => Pos.compare_cont Eq m1 m2
    end.
Proof.
  intros V1 V2. destruct (Z.compare_spec e1 e2) as [->|L|G].
  - destruct (valid_finite m2 e2 V2) as (E2 & _).
    assert (0 < 2 ^ (e2 - emin)) as K by (apply Z.pow_pos_nonneg; lia).
    set (k := 2 ^ (e2 - emin)) in *. clearbody k.
    change (Pos.compare_cont Eq m1 m2) with (Z.pos m1 ?= Z.pos m2).
    destruct (Z.compare_spec (Z.pos m1) (Z.pos m2)) as [->|L|G].
    + apply Z.compare_refl.
    + apply Z.compare_lt_iff. nia.
    + apply Z.compare_gt_iff. nia.
  - apply Z.compare_lt_iff. now apply scaled_lt_of_exponent.
  - apply Z.compare_gt_iff. now apply scaled_lt_of_exponent.
Qed.

Lemma compare_same_class x y :
  class x = class y -> compare x y = (scaled x ?= scaled y).
Proof. intros H. unfold compare. now rewrite H, Z.compare_refl. Qed.

(** On valid numbers, the representations binary64 really has, [compare] is
    the comparison of the library. *)
Lemma compare_valid x y :
  valid_binary prec emax x = true -> valid_binary prec emax y = true ->
  is_nan x = false -> is_nan y = false ->
  SFcompare x y = Some (compare x y).
Proof.
  intros Vx Vy Nx Ny.
  destruct x as [sx|sx| |sx mx ex]; try discriminate Nx;
    destruct y as [sy|sy| |sy my ey]; try discriminate Ny;
    try (destruct sx, sy; reflexivity).
  - (* zero, finite *)
    assert (valid_binary prec emax (S754_finite false my ey) = true) as V
      by exact Vy.
    destruct (valid_finite my ey V) as (E & _).
    rewrite compare_same_class by reflexivity. cbn [SFcompare].
    destruct sy; [pose proof (scaled_finite_neg my ey E) as S
                 |pose proof (scaled_finite_pos my ey E) as S];
      f_equal; symmetry;
      [apply Z.compare_gt_iff|apply Z.compare_lt_iff]; exact S.
  - (* finite, zero *)
    assert (valid_binary prec emax (S754_finite false mx ex) = true) as V
      by exact Vx.
    destruct (valid_finite mx ex V) as (E & _).
    rewrite compare_same_class by reflexivity. cbn [SFcompare].
    destruct sx; [pose proof (scaled_finite_neg mx ex E) as S
                 |pose proof (scaled_finite_pos mx ex E) as S];
      f_equal; symmetry;
      [apply Z.compare_lt_iff|apply Z.compare_gt_iff]; exact S.
  - (* finite, finite *)
    assert (valid_binary prec emax (S754_finite false mx ex) = true) as V1
      by exact Vx.
    assert (valid_binary prec emax (S754_finite false my ey) = true) as V2
      by exact Vy.
    destruct (valid_finite mx ex V1) as (E1 & _).
    destruct (valid_finite my ey V2) as (E2 & _).
    pose proof (compare_finite_same_sign mx ex my ey V1 V2) as C.
    pose proof (scaled_finite_pos mx ex E1) as P1.
    pose proof (scaled_finite_pos my ey E2) as P2.
    cbn [scaled cond_Zopp] in P1, P2.
    rewrite compare_same_class by reflexivity. cbn [SFcompare scaled].
    set (a := Z.pos mx * 2 ^ (ex - emin)) in *.
    set (b := Z.pos my * 2 ^ (ey - emin)) in *.
    destruct sx, sy; f_equal.
    + replace (cond_Zopp true (Z.pos mx) * 2 ^ (ex - emin)) with (- a)
        by (subst a; cbn [cond_Zopp]; lia).
      replace (cond_Zopp true (Z.pos my) * 2 ^ (ey - emin)) with (- b)
        by (subst b; cbn [cond_Zopp]; lia).
      rewrite Z.compare_opp, (Z.compare_antisym a b), C.
      now destruct (ex ?= ey).
    + replace (cond_Zopp true (Z.pos mx) * 2 ^ (ex - emin)) with (- a)
        by (subst a; cbn [cond_Zopp]; lia).
      symmetry. apply Z.compare_lt_iff. cbn [cond_Zopp]. fold b. lia.
    + replace (cond_Zopp true (Z.pos my) * 2 ^ (ey - emin)) with (- b)
        by (subst b; cbn [cond_Zopp]; lia).
      symmetry. apply Z.compare_gt_iff. cbn [cond_Zopp]. fold a. lia.
    + cbn [cond_Zopp]. fold a b. now rewrite C.
Qed.

(** *** Integers below 2^53: addition, multiplication and maximum are exact *)

Lemma iter_shr_1_exact p : forall k : positive,
  iter_pos shr_1 p
    {| shr_m := Z.pos k * 2 ^ Z.pos p; shr_r := false; shr_s := false |}
  = {| shr_m := Z.pos k; shr_r := false; shr_s := false |}.
Proof.
  induction p as [p IH|p IH|]; intros k; cbn [iter_pos].
  - rewrite pow2_xI.
    replace (Z.pos k * (2 * (2 ^ Z.pos p * 2 ^ Z.pos p)))
      with (Z.pos ((k * Pos.pow 2 p * Pos.pow 2 p)~0))
      by (rewrite Pos2Z.inj_xO, !Pos2Z.inj_mul, !Pos2Z.inj_pow; lia).
    cbn [shr_1 orb].
    replace (Z.pos (k * Pos.pow 2 p * Pos.pow 2 p))
      with (Z.pos (k * Pos.pow 2 p) * 2 ^ Z.pos p)
      by (rewrite !Pos2Z.inj_mul, !Pos2Z.inj_pow; lia).
    rewrite IH.
    replace (Z.pos (k * Pos.pow 2 p)) with (Z.pos k * 2 ^ Z.pos p)
      by (rewrite !Pos2Z.inj_mul, !Pos2Z.inj_pow; lia).
    apply IH.
  - rewrite pow2_xO.
    replace (Z.pos k * (2 ^ Z.pos p * 2 ^ Z.pos p))
      with (Z.pos (k * Pos.pow 2 p) * 2 ^ Z.pos p)
      by (rewrite !Pos2Z.inj_mul, !Pos2Z.inj_pow; lia).
    rewrite IH.
    replace (Z.pos (k * Pos.pow 2 p)) with (Z.pos k * 2 ^ Z.pos p)
      by (rewrite !Pos2Z.inj_mul, !Pos2Z.inj_pow; lia).
    apply IH.
  - change (2 ^ 1) with 2.
    replace (Z.pos k * 2) with (Z.pos k~0) by lia.
    reflexivity.
Qed.

Lemma digits2_pos_53 m : 2 ^ 52 <= Z.pos m < 2 ^ 53 -> Z.pos (digits2_pos m) = 53.
Proof.
  intros [L U]. pose proof (digits2_pos_le m 53 U).
  pose proof (digits2_pos_ge m 52 L). lia.
Qed.

(** A mantissa of 53 digits followed by [n] zero digits rounds to itself. *)
Lemma binary_round_aux_shifted s m t n M :
  Z.pos (digits2_pos m) = 53 -> emin <= t <= emax - prec -> 0 <= n ->
  Z.pos M = Z.pos m * 2 ^ n ->
  binary_round_aux prec emax s (Z.pos M) (t - n) loc_Exact = S754_finite s m t.
Proof.
  intros D [T0 T1] N E.
  assert (fexp prec emax (53 + t) = t) as F
    by (unfold emin, fexp, SpecFloat.emin, prec, emax in *; lia).
  destruct n as [|n|n]; [| |lia].
  - replace (t - 0) with t by lia.
    assert (M = m) as -> by (change (2 ^ 0) with 1 in E; lia).
    apply binary_round_aux_exact; [rewrite D; exact F|exact T1].
  - assert (Z.pos (digits2_pos M) = 53 + Z.pos n) as DM.
    { assert (M = Pos.iter xO m n) as ->
        by (apply Pos2Z.inj; rewrite iter_xO; exact E).
      rewrite digits2_pos_iter_xO. lia. }
    unfold binary_round_aux, shr_fexp. cbn [Zdigits2]. rewrite DM.
    replace (53 + Z.pos n + (t - Z.pos n)) with (53 + t) by lia.
    rewrite F. replace (t - (t - Z.pos n)) with (Z.pos n) by lia.
    cbn [shr shr_record_of_loc]. rewrite E, iter_shr_1_exact.
    cbn [shr_m loc_of_shr_record round_nearest_even Zdigits2].
    rewrite D. replace (t - Z.pos n + Z.pos n) with t by lia.
    rewrite F, Z.sub_diag. cbn [shr shr_record_of_loc shr_m].
    now apply Z.leb_le in T1 as ->.
Qed.

Lemma digits2_pos_mul a b :
  Z.pos (digits2_pos a) + Z.pos (digits2_pos b) - 1
  <= Z.pos (digits2_pos (a * b)).
Proof.
  pose proof (digits2_pos_lower a) as La. pose proof (digits2_pos_lower b) as Lb.
  assert (Z.pos (digits2_pos a) + Z.pos (digits2_pos b) - 2
          < Z.pos (digits2_pos (a * b))); [|lia].
  apply digits2_pos_ge. rewrite Pos2Z.inj_mul.
  replace (Z.pos (digits2_pos a) + Z.pos (digits2_pos b) - 2)
    with ((Z.pos (digits2_pos a) - 1) + (Z.pos (digits2_pos b) - 1)) by lia.
  rewrite Z.pow_add_r by lia.
  apply Z.mul_le_mono_nonneg; try lia; apply Z.pow_nonneg; lia.
Qed.

Lemma pow2_split a b : 0 <= a -> 0 <= b -> 2 ^ (a + b) = 2 ^ a * 2 ^ b.
Proof. intros. now apply Z.pow_add_r. Qed.

(** The product of two positive integers is exact when it is below 2^53. *)
Lemma mul_of_Z a b :
  0 < a -> 0 < b -> a * b < 2 ^ 53 ->
  mul (of_Z a) (of_Z b) = of_Z (a * b).
Proof.
  intros Ha Hb Hab.
  destruct a as [|a|a]; try lia. destruct b as [|b|b]; try lia.
  assert (Z.pos a < 2 ^ 53) as Sa by nia.
  assert (Z.pos b < 2 ^ 53) as Sb by nia.
  change (Z.pos a * Z.pos b) with (Z.pos (a * b)) in *.
  destruct (of_Z_exact a Sa) as (ma & -> & Ea & Ba).
  destruct (of_Z_exact b Sb) as (mb & -> & Eb & Bb).
  destruct (of_Z_exact (a * b) Hab) as (mab & -> & Eab & Bab).
  set (Da := Z.pos (digits2_pos a)) in *.
  set (Db := Z.pos (digits2_pos b)) in *.
  set (Dab := Z.pos (digits2_pos (a * b))) in *.
  pose proof (digits2_pos_mul a b) as DM. fold Da Db Dab in DM.
  pose proof (digits2_pos_le a 53 Sa) as La. fold Da in La.
  pose proof (digits2_pos_le b 53 Sb) as Lb. fold Db in Lb.
  pose proof (digits2_pos_le (a * b) 53 Hab) as Lab. fold Dab in Lab.
  assert (0 < Da /\ 0 < Db /\ 0 < Dab) as (Pa & Pb & Pab)
    by (unfold Da, Db, Dab; lia).
  unfold mul, SFmul. cbn [xorb].
  replace (Da - 53 + (Db - 53))
    with ((Dab - 53) - (53 + Dab - Da - Db)) by lia.
  apply binary_round_aux_shifted.
  - now apply digits2_pos_53.
  - unfold emin, SpecFloat.emin, prec, emax. lia.
  - lia.
  - rewrite Pos2Z.inj_mul, Ea, Eb, Eab, Pos2Z.inj_mul.
    replace (53 + Dab - Da - Db) with ((53 - Da) + (53 - Db) - (53 - Dab))
      by lia.
    assert (2 ^ (53 - Da + (53 - Db))
            = 2 ^ (53 - Dab) * 2 ^ (53 - Da + (53 - Db) - (53 - Dab))) as P.
    { rewrite <- Z.pow_add_r by lia. f_equal. lia. }
    rewrite (pow2_split (53 - Da) (53 - Db)) in P by lia.
    set (x := 2 ^ (53 - Da)) in *. set (y := 2 ^ (53 - Db)) in *.
    set (z := 2 ^ (53 - Dab)) in *.
    set (u := 2 ^ (53 - Da + (53 - Db) - (53 - Dab))) in *.
    clearbody x y z u. nia.
Qed.

Lemma of_Z_0 : of_Z 0 = S754_zero false.
Proof. reflexivity. Qed.

Lemma digits2_pos_mono a b :
  Z.pos a <= Z.pos b -> Z.pos (digits2_pos a) <= Z.pos (digits2_pos b).
Proof.
  intros H. apply digits2_pos_le.
  pose proof (digits2_pos_upper b). lia.
Qed.

(** The sum of two integers that are not negative is exact when it is below
    2^53. *)
Lemma add_of_Z a b :
  0 <= a -> 0 <= b -> a + b < 2 ^ 53 ->
  add (of_Z a) (of_Z b) = of_Z (a + b).
Proof.
  intros Ha Hb Hab.
  destruct a as [|a|a]; try lia.
  { rewrite of_Z_0. cbn [Z.add]. destruct b as [|b|b]; try lia; [reflexivity|].
    destruct (of_Z_finite (Z.pos b) ltac:(lia)) as (m & e & ->). reflexivity. }
  destruct b as [|b|b]; try lia.
  { rewrite of_Z_0, Z.add_0_r.
    destruct (of_Z_finite (Z.pos a) ltac:(lia)) as (m & e & ->). reflexivity. }
  assert (Z.pos a < 2 ^ 53) as Sa by lia.
  assert (Z.pos b < 2 ^ 53) as Sb by lia.
  change (Z.pos a + Z.pos b) with (Z.pos (a + b)) in *.
  destruct (of_Z_exact a Sa) as (ma & -> & Ea & Ba).
  destruct (of_Z_exact b Sb) as (mb & -> & Eb & Bb).
  destruct (of_Z_exact (a + b) Hab) as (mab & -> & Eab & Bab).
  set (Da := Z.pos (digits2_pos a)) in *.
  set (Db := Z.pos (digits2_pos b)) in *.
  set (Dab := Z.pos (digits2_pos (a + b))) in *.
  pose proof (digits2_pos_mono a (a + b) ltac:(lia)) as Ma. fold Da Dab in Ma.
  pose proof (digits2_pos_mono b (a + b) ltac:(lia)) as Mb. fold Db Dab in Mb.
  pose proof (digits2_pos_le (a + b) 53 Hab) as Lab. fold Dab in Lab.
  assert (0 < Da /\ 0 < Db) as (Pa & Pb) by (unfold Da, Db; lia).
  unfold add, SFadd. cbn [cond_Zopp].
  set (ez := Z.min (Da - 53) (Db - 53)).
  assert (ez <= Da - 53 /\ ez <= Db - 53 /\ ez <= Dab - 53) as (Za & Zb & Zab)
    by (unfold ez; lia).
  pose proof (shl_align_fst ma (Da - 53) ez Za) as Aa.
  pose proof (shl_align_fst mb (Db - 53) ez Zb) as Ab.
  set (xa := fst (shl_align ma (Da - 53) ez)) in *.
  set (xb := fst (shl_align mb (Db - 53) ez)) in *.
  change (Z.pos xa + Z.pos xb) with (Z.pos (xa + xb)).
  cbn [binary_normalize]. unfold binary_round.
  assert (Z.pos (xa + xb) = Z.pos mab * 2 ^ (Dab - 53 - ez)) as E.
  { rewrite Pos2Z.inj_add, Aa, Ab, Ea, Eb, Eab, Pos2Z.inj_add.
    assert (2 ^ (53 - Da) * 2 ^ (Da - 53 - ez) = 2 ^ (- ez)) as P1
      by (rewrite <- Z.pow_add_r by lia; f_equal; lia).
    assert (2 ^ (53 - Db) * 2 ^ (Db - 53 - ez) = 2 ^ (- ez)) as P2
      by (rewrite <- Z.pow_add_r by lia; f_equal; lia).
    assert (2 ^ (53 - Dab) * 2 ^ (Dab - 53 - ez) = 2 ^ (- ez)) as P3
      by (rewrite <- Z.pow_add_r by lia; f_equal; lia).
    set (u1 := 2 ^ (53 - Da)) in *. set (v1 := 2 ^ (Da - 53 - ez)) in *.
    set (u2 := 2 ^ (53 - Db)) in *. set (v2 := 2 ^ (Db - 53 - ez)) in *.
    set (u3 := 2 ^ (53 - Dab)) in *. set (v3 := 2 ^ (Dab - 53 - ez)) in *.
    set (k := 2 ^ (- ez)) in *. clearbody u1 v1 u2 v2 u3 v3 k. nia. }
  destruct (Dab - 53 - ez) as [|n|n] eqn:N.
  - (* both summands as long as the sum: impossible *)
    exfalso. change (2 ^ 0) with 1 in E.
    replace (Da - 53 - ez) with 0 in Aa by lia.
    replace (Db - 53 - ez) with 0 in Ab by lia.
    change (2 ^ 0) with 1 in Aa, Ab. lia.
  - assert (xa + xb = Pos.iter xO mab n)%positive as X
      by (apply Pos2Z.inj; rewrite iter_xO; exact E).
    assert (Z.pos (digits2_pos (xa + xb)) = 53 + Z.pos n) as DX
      by (rewrite X, digits2_pos_iter_xO, (digits2_pos_53 mab Bab);
          reflexivity).
    rewrite DX.
    replace (53 + Z.pos n + ez) with Dab by lia.
    assert (fexp prec emax Dab = Dab - 53) as F
      by (unfold Dab, fexp, SpecFloat.emin, prec, emax; lia).
    rewrite F. unfold shl_align. rewrite N.
    assert (ez = Dab - 53 - Z.pos n) as Ez by lia. rewrite Ez.
    apply binary_round_aux_shifted;
      [now apply digits2_pos_53
      |unfold emin, SpecFloat.emin, prec, emax; lia|lia|exact E].
  - lia.
Qed.

Lemma of_Z_valid a : 0 <= a < 2 ^ 53 -> valid_binary prec emax (of_Z a) = true.
Proof.
  intros [H0 H1]. destruct a as [|a|a]; try lia; [reflexivity|].
  destruct (of_Z_exact a H1) as (m & -> & _ & B).
  pose proof (digits2_pos_le a 53 H1) as L.
  cbn [valid_binary]. unfold bounded, canonical_mantissa.
  rewrite (digits2_pos_53 m B).
  apply andb_true_intro. split; [apply Z.eqb_eq|apply Z.leb_le];
    unfold fexp, SpecFloat.emin, prec, emax; lia.
Qed.

Lemma of_Z_scaled a :
  0 <= a < 2 ^ 53 -> class (of_Z a) = 0 /\ scaled (of_Z a) = a * 2 ^ 1074.
Proof.
  intros [H0 H1]. destruct a as [|a|a]; try lia; [split; reflexivity|].
  destruct (of_Z_exact a H1) as (m & -> & E & _).
  pose proof (digits2_pos_le a 53 H1) as L.
  split; [reflexivity|]. cbn [scaled cond_Zopp]. rewrite E.
  rewrite <- Z.mul_assoc, <- Z.pow_add_r
    by (unfold emin, SpecFloat.emin, prec, emax; lia).
  do 2 f_equal. unfold emin, SpecFloat.emin, prec, emax. lia.
Qed.

Lemma compare_of_Z a b :
  0 <= a < 2 ^ 53 -> 0 <= b < 2 ^ 53 ->
  SFcompare (of_Z a) (of_Z b) = Some (a ?= b).
Proof.
  intros Ha Hb.
  rewrite (compare_valid _ _ (of_Z_valid a Ha) (of_Z_valid b Hb)
             (of_Z_not_nan a) (of_Z_not_nan b)).
  destruct (of_Z_scaled a Ha) as [Ca Sa]. destruct (of_Z_scaled b Hb) as [Cb Sb].
  unfold compare. rewrite Ca, Cb, Sa, Sb. cbn [Z.compare]. f_equal.
  assert (0 < 2 ^ 1074) as P by (apply Z.pow_pos_nonneg; lia).
  set (k := 2 ^ 1074) in *. clearbody k.
  destruct (Z.compare_spec a b) as [E|L|G].
  - subst. apply Z.compare_refl.
  - apply Z.compare_lt_iff. nia.
  - apply Z.compare_gt_iff. nia.
Qed.

(** [Math.max] of two integers that are not negative is their maximum. *)
Lemma Math_max_of_Z a b :
  0 <= a < 2 ^ 53 -> 0 <= b < 2 ^ 53 ->
  Math_max (of_Z a) (of_Z b) = of_Z (Z.max a b).
Proof.
  intros Ha Hb. unfold Math_max. rewrite (compare_of_Z a b Ha Hb).
  unfold Z.max. destruct (Z.compare_spec a b) as [E|L|G]; try reflexivity.
  subst b. now destruct (of_Z a) as [[]| | |].
Qed.

End Float64Facts.

Import Float64Facts.

(** ** Rounding of the interval product *)

Lemma exact_round_mul_1_3 n : exact_round (inject_Z n * 1.3) = (13 * n + 5) / 10.
Proof.
  unfold exact_round, Qfloor, Qplus, Qmult, inject_Z. simpl.
  replace (n * 13 * 2 + 10) with ((13 * n + 5) * 2) by lia.
  change 20 with (10 * 2).
  apply Z.div_mul_cancel_r; lia.
Qed.

Lemma agrees_below_spec k :
  agrees_below k = true -> forall i, (i < k)%nat -> agrees (Z.of_nat i) = true.
Proof.
  induction k as [|k IH]; simpl; intros H i Hi; [lia|].
  apply andb_prop in H as [H1 H2].
  destruct (Nat.eq_dec i k) as [->|]; [assumption|apply IH; [assumption|lia]].
Qed.

Lemma agrees_checked : agrees_below checked_days = true.
Proof. vm_compute. reflexivity. Qed.

(** For every interval up to ten years the binary64 computation of
    [Math.round(interval * 1.3)] returns the exact product rounded to the
    nearest integer, halves up. *)
Lemma round_mul_agrees n :
  0 <= n < Z.of_nat checked_days ->
  Float64.Math_round (Float64.mul (Float64.of_Z n) Float64.lit_1_3)
  = exact_round (inject_Z n * 1.3).
Proof.
  intros H.
  pose proof (agrees_below_spec checked_days agrees_checked (Z.to_nat n)) as A.
  rewrite Z2Nat.id in A by lia.
  assert ((Z.to_nat n < checked_days)%nat) as I by lia.
  apply A in I. now apply Z.eqb_eq in I.
Qed.

(** ** ReviewScheduler *)

Lemma DataModel_newWordItem uuid txt title now :
  DataModel (newWordItem uuid txt title now).
Proof.
  unfold DataModel; simpl. repeat split; try lia.
  exists 0, 0. repeat split; lia.
Qed.

Lemma calculateNextReview_world r c w :
  snd (calculateNextReview r c w) = tick w.
Proof. reflexivity. Qed.

(** C1.  A correct outcome on a record that satisfies the data model, at
    time [now]: the streak becomes [max (streak + 1) 10], hence at least 10;
    the interval becomes [Math.round(interval * 1.3)] when it was above 14
    and 14 otherwise; the ease factor becomes [max 1.3 (easeFactor + 0.1)];
    [totalWrong] and [lastWrongAt] are unchanged; [totalAttempts] grows by
    one; [lastReviewed] is [now] and [nextReview] is [now] plus the new
    interval in days.

    The source computes the streak, the counter and the next review time in
    binary64, which is exact on integers as long as they stay below 2^53.
    The statement is for that range: a streak and a counter that can grow by
    one, a clock that is not negative, and a next review time below 2^53.
    Its last three parts say that the binary64 operations of the source then
    give the very integers stated. *)
Theorem correct_outcome (r : WordItem) (w : World) :
  DataModel r ->
  let now := now_of w in
  let r' := fst (calculateNextReview r true w) in
  streak r + 1 < 2 ^ 53 ->
  or0 (totalAttempts r) + 1 < 2 ^ 53 ->
  0 <= now ->
  now + interval r' * ONE_DAY < 2 ^ 53 ->
  streak r' = Z.max (streak r + 1) 10 /\
  10 <= streak r' /\
  interval r' =
    (if interval r >? 14
     then Float64.Math_round
            (Float64.mul (Float64.of_Z (interval r)) Float64.lit_1_3)
     else 14) /\
  easeFactor r' =
    Float64.Math_max Float64.lit_1_3
      (Float64.add (easeFactor r) Float64.lit_0_1) /\
  totalWrong r' = totalWrong r /\
  lastWrongAt r' = lastWrongAt r /\
  totalAttempts r' = option_map (fun n => n + 1) (totalAttempts r) /\
  lastReviewed r' = Some now /\
  nextReview r' = now + interval r' * ONE_DAY /\
  Float64.Math_max
    (Float64.add (Float64.of_Z (streak r)) (Float64.of_Z 1)) (Float64.of_Z 10)
  = Float64.of_Z (streak r') /\
  Float64.add (Float64.of_Z (or0 (totalAttempts r))) (Float64.of_Z 1)
  = Float64.of_Z (or0 (totalAttempts r')) /\
  Float64.add (Float64.of_Z now)
    (Float64.mul (Float64.of_Z (interval r')) (Float64.of_Z ONE_DAY))
  = Float64.of_Z (nextReview r').
Proof.
  intros (_ & Hs & Hi & a & b & Ha & Hb & Hab) now r' Ss Sa Hn Sn.
  assert (interval r' =
          if interval r >? 14
          then Float64.Math_round
                 (Float64.mul (Float64.of_Z (interval r)) Float64.lit_1_3)
          else 14) as I by reflexivity.
  assert (0 < interval r') as Pi.
  { rewrite I. destruct (Z.gtb_spec (interval r) 14) as [G|_]; [|lia].
    apply Math_round_mul_1_3_positive. lia. }
  assert (nextReview r' =
          if interval r' =? 0 then now else now + interval r' * ONE_DAY) as N0
    by reflexivity.
  assert (nextReview r' = now + interval r' * ONE_DAY) as N.
  { rewrite N0. destruct (Z.eqb_spec (interval r') 0); [lia|reflexivity]. }
  assert (streak r' = Z.max (streak r + 1) 10) as S by reflexivity.
  assert (totalAttempts r' = Some (a + 1)) as A.
  { subst r'. unfold calculateNextReview, bind, Date_now, ret.
    cbn [fst totalAttempts]. now rewrite Ha. }
  rewrite Ha in Sa. cbn [or0] in Sa.
  assert (0 < ONE_DAY) as D by reflexivity.
  split; [exact S|]. split; [lia|].
  split; [exact I|]. split; [reflexivity|].
  split; [subst r'; unfold calculateNextReview, bind, Date_now, ret;
          cbn [fst totalWrong s_totalWrong]; now rewrite Hb|].
  split; [reflexivity|].
  split; [now rewrite A, Ha|].
  split; [reflexivity|]. split; [exact N|].
  split; [|split].
  - rewrite add_of_Z by lia. rewrite Math_max_of_Z by lia. now rewrite S.
  - rewrite A, Ha. cbn [or0]. apply add_of_Z; lia.
  - rewrite N. rewrite mul_of_Z by nia. apply add_of_Z; nia.
Qed.

Lemma correct_outcome_witness :
  DataModel sample_mastered /\
  interval (fst (calculateNextReview sample_mastered true sample_world)) = 39 /\
  nextReview (fst (calculateNextReview sample_mastered true sample_world))
  = sample_now + 39 * ONE_DAY.
Proof.
  assert (DataModel sample_mastered) as D.
  { unfold DataModel; simpl. repeat split; try lia.
    exists 0, 0. repeat split; lia. }
  assert (streak sample_mastered + 1 < 2 ^ 53) as Ss by reflexivity.
  assert (or0 (totalAttempts sample_mastered) + 1 < 2 ^ 53) as Sa
    by reflexivity.
  assert (0 <= now_of sample_world) as Hn by (vm_compute; discriminate).
  assert (now_of sample_world
          + interval (fst (calculateNextReview sample_mastered true
                             sample_world)) * ONE_DAY < 2 ^ 53) as Sn
    by (vm_compute; reflexivity).
  split; [exact D|].
  destruct (correct_outcome sample_mastered sample_world D Ss Sa Hn Sn)
    as (_ & _ & I & _ & _ & _ & _ & _ & N & _).
  rewrite N, I. split; reflexivity.
Defined.

(** The range holds every schedule in use: with an interval of up to ten
    years and a clock below 2^52 the next review time stays below 2^53. *)
Lemma nextReview_safe_ten_years (r : WordItem) (w : World) :
  0 <= interval r <= 3650 ->
  0 <= now_of w < 2 ^ 52 ->
  now_of w + interval (fst (calculateNextReview r true w)) * ONE_DAY < 2 ^ 53.
Proof.
  intros Hi Hn.
  assert (interval (fst (calculateNextReview r true w)) <= 4746) as B.
  { change (interval (fst (calculateNextReview r true w)))
      with (if interval r >? 14
            then Float64.Math_round
                   (Float64.mul (Float64.of_Z (interval r)) Float64.lit_1_3)
            else 14).
    destruct (interval r >? 14); [|lia].
    assert (Z.of_nat checked_days = 3651) as C by (vm_compute; reflexivity).
    rewrite round_mul_agrees by (rewrite C; lia).
    rewrite exact_round_mul_1_3.
    apply Z.div_le_upper_bound; lia. }
  change (2 ^ 52) with 4503599627370496 in Hn.
  change (2 ^ 53) with 9007199254740992.
  change ONE_DAY with 86400000. lia.
Qed.

(** Beyond that range the sum is rounded: an interval of 104249992 days at
    the clock reading 1700000000001 gives a next review time that is one
    millisecond short of the exact sum. *)
Example nextReview_rounds_beyond_2_53 :
  Float64.add (Float64.of_Z 1700000000001)
    (Float64.mul (Float64.of_Z 104249992) (Float64.of_Z ONE_DAY))
  = Float64.of_Z (1700000000001 + 104249992 * ONE_DAY - 1).
Proof. vm_compute. reflexivity. Qed.



Lemma calculateNextReview_interval_correct r w :
  interval (fst (calculateNextReview r true w)) =
  if interval r >? 14
  then Float64.Math_round
         (Float64.mul (Float64.of_Z (interval r)) Float64.lit_1_3)
  else 14.
Proof. reflexivity. Qed.

Lemma interval_stays_14 r w :
  interval r <= 14 -> interval (fst (calculateNextReview r true w)) = 14.
Proof.
  intros H. rewrite calculateNextReview_interval_correct.
  destruct (Z.gtb_spec (interval r) 14); [lia|reflexivity].
Qed.

(** C3, as the code has it.  From a record with interval 0, three correct
    outcomes in a row, each applied to the result of the one before, give the
    intervals 14, 14 and 14: the test [interval > 14] fails at 14, so the
    interval is never multiplied. *)
Theorem three_correct_outcomes (r : WordItem) (w : World) :
  interval r = 0 ->
  let (r1, w1) := calculateNextReview r true w in
  let (r2, w2) := calculateNextReview r1 true w1 in
  let (r3, _) := calculateNextReview r2 true w2 in
  interval r1 = 14 /\ interval r2 = 14 /\ interval r3 = 14.
Proof.
  intros H.
  pose proof (interval_stays_14 r w) as I1.
  destruct (calculateNextReview r true w) as [r1 w1].
  pose proof (interval_stays_14 r1 w1) as I2.
  destruct (calculateNextReview r1 true w1) as [r2 w2].
  pose proof (interval_stays_14 r2 w2) as I3.
  destruct (calculateNextReview r2 true w2) as [r3 w3].
  cbn [fst] in *. lia.
Qed.

Lemma three_correct_outcomes_witness :
  interval sample_word = 0 /\
  let (r1, w1) := calculateNextReview sample_word true sample_world in
  let (r2, w2) := calculateNextReview r1 true w1 in
  let (r3, _) := calculateNextReview r2 true w2 in
  interval r1 = 14 /\ interval r2 = 14 /\ interval r3 = 14.
Proof.
  split; [reflexivity|].
  apply (three_correct_outcomes sample_word sample_world). reflexivity.
Defined.

(** [Math.round(14 * 1.3)] is 18, but no interval of 14 is ever multiplied. *)
Example round_14_times_1_3 :
  Float64.Math_round (Float64.mul (Float64.of_Z 14) Float64.lit_1_3) = 18.
Proof. reflexivity. Qed.

(** C3, as stated, fails on a new word: the third interval is not 18. *)
Lemma third_correct_outcome_is_not_18 :
  interval sample_word = 0 /\
  ~ (let (r1, w1) := calculateNextReview sample_word true sample_world in
     let (r2, w2) := calculateNextReview r1 true w1 in
     let (r3, _) := calculateNextReview r2 true w2 in
     interval r1 = 14 /\ interval r2 = 14 /\ interval r3 = 18).
Proof.
  split; [reflexivity|].
  cbn. intros (_ & _ & H). discriminate H.
Qed.

(** C10.  Whatever the outcome, [calculateNextReview] returns a record with
    the [id], [text], [groupTitle] and [addedAt] of its input; the other
    eight fields are the scheduling fields. *)
Theorem calculateNextReview_frame (r : WordItem) (isCorrect : bool) (w : World) :
  let r' := fst (calculateNextReview r isCorrect w) in
  id r' = id r /\ text r' = text r /\
  groupTitle r' = groupTitle r /\ addedAt r' = addedAt r.
Proof. repeat split. Qed.

Lemma calculateNextReview_easeFactor r isCorrect w :
  Float64.geb (easeFactor r) Float64.lit_1_3 = true ->
  Float64.geb (easeFactor (fst (calculateNextReview r isCorrect w)))
    Float64.lit_1_3 = true.
Proof.
  intros H. unfold calculateNextReview, bind, Date_now, ret.
  cbn [fst easeFactor]. destruct isCorrect; cbn [s_easeFactor].
  - apply Math_max_lit_1_3_geb, add_not_nan, H.
  - apply Math_max_lit_1_3_geb, sub_not_nan, H.
Qed.

Lemma updateWordStatus_easeFactor target status r w :
  Float64.geb (easeFactor r) Float64.lit_1_3 = true ->
  Float64.geb (easeFactor (fst (updateWordStatus target status r w)))
    Float64.lit_1_3 = true.
Proof.
  intros H. unfold updateWordStatus.
  destruct (String.eqb (id r) (id target)); [|exact H].
  destruct status; [reflexivity|exact H].
Qed.

(** C8.  A record whose ease factor is at least 1.3 keeps an ease factor of
    at least 1.3 through [calculateNextReview], for either outcome, and
    through the manual override, for either target status. *)
Theorem easeFactor_floor_preserved
    (r target : WordItem) (isCorrect : bool) (status : Status) (w : World) :
  Float64.geb (easeFactor r) Float64.lit_1_3 = true ->
  Float64.geb (easeFactor (fst (calculateNextReview r isCorrect w)))
    Float64.lit_1_3 = true /\
  Float64.geb (easeFactor (fst (updateWordStatus target status r w)))
    Float64.lit_1_3 = true.
Proof.
  intros H. split.
  - now apply calculateNextReview_easeFactor.
  - now apply updateWordStatus_easeFactor.
Qed.

Lemma easeFactor_floor_preserved_witness :
  Float64.geb (easeFactor sample_word) Float64.lit_1_3 = true /\
  Float64.geb
    (easeFactor (fst (calculateNextReview sample_word false sample_world)))
    Float64.lit_1_3 = true.
Proof.
  split; [reflexivity|].
  apply (easeFactor_floor_preserved sample_word sample_word false REVIEW sample_world).
  reflexivity.
Defined.

(** ** Array.prototype.sort *)

Section SortFacts.

Context {A : Type}.

(** Whatever the comparator answers, the sort only rearranges. *)
Lemma insert_Permutation (comparefn : A -> A -> M spec_float) x : forall l w,
  Permutation (fst (insert comparefn x l w)) (x :: l).
Proof.
  induction l as [|y ys IH]; intros w; cbn [insert].
  - apply Permutation_refl.
  - unfold bind at 1.
    destruct (comparefn x y w) as [v w1].
    destruct (Float64.gt0 v).
    + unfold bind, ret. specialize (IH w1).
      destruct (insert comparefn x ys w1) as [r w2]. cbn [fst] in *.
      rewrite perm_swap. now apply perm_skip.
    + apply Permutation_refl.
Qed.

Lemma Array_sort_Permutation (comparefn : A -> A -> M spec_float) : forall l w,
  Permutation (fst (Array_sort comparefn l w)) l.
Proof.
  induction l as [|x xs IH]; intros w; cbn [Array_sort].
  - apply Permutation_refl.
  - unfold bind. specialize (IH w).
    destruct (Array_sort comparefn xs w) as [sorted w1]. cbn [fst] in IH.
    rewrite insert_Permutation. now apply perm_skip.
Qed.

Variable compare : A -> A -> spec_float.

(** A comparator that does not touch the world leaves it as it was. *)
Lemma insert_pure x : forall l w,
  insert (fun a b => ret (compare a b)) x l w = (insertBy compare x l, w).
Proof.
  induction l as [|y ys IH]; intros w; cbn [insert insertBy].
  - reflexivity.
  - unfold bind at 1, ret at 1.
    destruct (Float64.gt0 (compare x y)); [|reflexivity].
    unfold bind. now rewrite IH.
Qed.

Lemma Array_sort_pure : forall l w,
  Array_sort (fun a b => ret (compare a b)) l w = (sortBy compare l, w).
Proof.
  induction l as [|x xs IH]; intros w; cbn [Array_sort].
  - reflexivity.
  - unfold bind. rewrite IH. apply insert_pure.
Qed.

Lemma insertBy_Permutation x l : Permutation (insertBy compare x l) (x :: l).
Proof.
  pose proof (insert_Permutation (fun a b => ret (compare a b)) x l
                sample_world) as P.
  now rewrite insert_pure in P.
Qed.

Lemma sortBy_Permutation l : Permutation (sortBy compare l) l.
Proof.
  pose proof (Array_sort_Permutation (fun a b => ret (compare a b)) l
                sample_world) as P.
  now rewrite Array_sort_pure in P.
Qed.

End SortFacts.

(** Sorting by a key, largest first.  The keys are regular numbers. *)
Section SortByKey.

Context {A : Type}.
Variable key : A -> spec_float.

Lemma descendingBy_gt0 a b :
  Float64.regular (key a) = true -> Float64.regular (key b) = true ->
  (Float64.gt0 (descendingBy key a b) = true
   <-> Float64.compare (key b) (key a) = Gt).
Proof. intros Ra Rb. unfold descendingBy. now apply sub_gt0. Qed.

Lemma passes_dominates a b :
  Float64.compare (key b) (key a) = Gt -> dominates key b a.
Proof.
  intros H. unfold dominates, Float64.le.
  rewrite compare_antisym, H. discriminate.
Qed.

Lemma stops_dominates a b :
  Float64.regular (key a) = true -> Float64.regular (key b) = true ->
  Float64.gt0 (descendingBy key a b) = false -> dominates key a b.
Proof.
  intros Ra Rb H. unfold dominates, Float64.le. intros G.
  apply (descendingBy_gt0 a b Ra Rb) in G. congruence.
Qed.

Lemma dominates_trans a b c :
  dominates key a b -> dominates key b c -> dominates key a c.
Proof. unfold dominates. intros H1 H2. eapply le_trans; eassumption. Qed.

Lemma insertBy_sorted x : forall l,
  Float64.regular (key x) = true ->
  Forall (fun y => Float64.regular (key y) = true) l ->
  StronglySorted (dominates key) l ->
  StronglySorted (dominates key) (insertBy (descendingBy key) x l).
Proof.
  induction l as [|y ys IH]; intros Rx Rl S; cbn [insertBy].
  - repeat constructor.
  - inversion S as [|? ? Sys Fy]; subst.
    inversion Rl as [|? ? Ry Rys]; subst.
    destruct (Float64.gt0 (descendingBy key x y)) eqn:E.
    + constructor; [now apply IH|].
      apply (descendingBy_gt0 x y Rx Ry) in E.
      eapply Permutation_Forall.
      * symmetry. apply insertBy_Permutation.
      * constructor; [|exact Fy]. now apply passes_dominates.
    + apply (stops_dominates x y Rx Ry) in E.
      constructor; [assumption|].
      constructor; [exact E|].
      eapply Forall_impl; [|exact Fy].
      intros z Hz. eapply dominates_trans; eassumption.
Qed.

Lemma sortBy_regular (P : A -> Prop) l :
  Forall P l -> Forall P (sortBy (descendingBy key) l).
Proof.
  apply Permutation_Forall. symmetry. apply sortBy_Permutation.
Qed.

Lemma sortBy_sorted l :
  Forall (fun y => Float64.regular (key y) = true) l ->
  StronglySorted (dominates key) (sortBy (descendingBy key) l).
Proof.
  induction l as [|x xs IH]; intros R; cbn [sortBy fold_right].
  - constructor.
  - inversion R as [|? ? Rx Rxs]; subst.
    apply insertBy_sorted; [exact Rx|now apply sortBy_regular|now apply IH].
Qed.

(** The elements of one key keep their relative order. *)
Lemma insertBy_withKey k x : forall l,
  Float64.regular (key x) = true ->
  Forall (fun y => Float64.regular (key y) = true) l ->
  withKey key k (insertBy (descendingBy key) x l) = withKey key k (x :: l).
Proof.
  induction l as [|y ys IH]; intros Rx Rl; cbn [insertBy].
  - reflexivity.
  - inversion Rl as [|? ? Ry Rys]; subst.
    destruct (Float64.gt0 (descendingBy key x y)) eqn:E; [|reflexivity].
    apply (descendingBy_gt0 x y Rx Ry) in E.
    unfold withKey in *. cbn [filter] in *. rewrite (IH Rx Rys).
    destruct (Float64.eqvb (key x) k) eqn:Ex; [|reflexivity].
    destruct (Float64.eqvb (key y) k) eqn:Ey; [|reflexivity].
    apply eqvb_true in Ex, Ey. apply compare_Gt_spec in E. lia.
Qed.

Lemma sortBy_withKey k l :
  Forall (fun y => Float64.regular (key y) = true) l ->
  withKey key k (sortBy (descendingBy key) l) = withKey key k l.
Proof.
  induction l as [|x xs IH]; intros R; cbn [sortBy fold_right]; [reflexivity|].
  inversion R as [|? ? Rx Rxs]; subst.
  fold (sortBy (descendingBy key) xs).
  rewrite insertBy_withKey by (assumption || now apply sortBy_regular).
  unfold withKey in *. cbn [filter]. now rewrite IH.
Qed.

Lemma in_withKey x l : In x l -> In x (withKey key (key x) l).
Proof.
  intros H. apply filter_In. split; [exact H|].
  apply eqvb_true. split; reflexivity.
Qed.

Lemma withKey_incl k x l : In x (withKey key k l) -> In x l.
Proof. intros H. now apply filter_In in H. Qed.

(** Order and stability determine the result: a list in descending key
    order whose equal-key elements stand as in [l] is the sorted [l].  So any
    stable sorting algorithm an engine may use returns what the insertion sort
    returns. *)
Lemma stable_sorted_unique : forall l1 l2,
  StronglySorted (dominates key) l1 ->
  StronglySorted (dominates key) l2 ->
  (forall k, withKey key k l1 = withKey key k l2) ->
  l1 = l2.
Proof.
  induction l1 as [|x xs IH]; intros l2 S1 S2 E.
  - destruct l2 as [|y ys]; [reflexivity|].
    pose proof (in_withKey y (y :: ys) (or_introl eq_refl)) as I.
    rewrite <- E in I. destruct I.
  - destruct l2 as [|y ys].
    { pose proof (in_withKey x (x :: xs) (or_introl eq_refl)) as I.
      rewrite E in I. destruct I. }
    inversion S1 as [|? ? S1' F1]; subst.
    inversion S2 as [|? ? S2' F2]; subst.
    rewrite Forall_forall in F1, F2.
    assert (Float64.le (key y) (key x)) as Lyx.
    { pose proof (in_withKey y (y :: ys) (or_introl eq_refl)) as I.
      rewrite <- E in I. apply withKey_incl in I.
      destruct I as [->|I]; [apply le_refl|]. apply (F1 y I). }
    assert (Float64.le (key x) (key y)) as Lxy.
    { pose proof (in_withKey x (x :: xs) (or_introl eq_refl)) as I.
      rewrite E in I. apply withKey_incl in I.
      destruct I as [->|I]; [apply le_refl|]. apply (F2 x I). }
    apply le_spec in Lyx, Lxy.
    assert (x = y) as ->.
    { specialize (E (key x)). unfold withKey in E. cbn [filter] in E.
      assert (Float64.eqvb (key x) (key x) = true) as Ex
        by (apply eqvb_true; split; reflexivity).
      assert (Float64.eqvb (key y) (key x) = true) as Ey
        by (apply eqvb_true; lia).
      rewrite Ex, Ey in E. now inversion E. }
    f_equal. apply IH; [assumption|assumption|].
    intros k. specialize (E k). unfold withKey in *. cbn [filter] in E.
    destruct (Float64.eqvb (key y) k); [now inversion E|exact E].
Qed.

Lemma sortBy_unique l l' :
  Forall (fun y => Float64.regular (key y) = true) l ->
  StronglySorted (dominates key) l' ->
  (forall k, withKey key k l' = withKey key k l) ->
  l' = sortBy (descendingBy key) l.
Proof.
  intros R S E. apply stable_sorted_unique; [exact S|now apply sortBy_sorted|].
  intros k. now rewrite E, sortBy_withKey.
Qed.

End SortByKey.

Section SortedLists.

Context {A : Type} (R : A -> A -> Prop).

(** A prefix of a sorted list dominates the rest. *)
Lemma StronglySorted_firstn_skipn n : forall l a b,
  StronglySorted R l -> In a (firstn n l) -> In b (skipn n l) -> R a b.
Proof.
  induction n as [|n IH]; intros l a b S Ha Hb.
  - destruct Ha.
  - destruct l as [|x xs]; [destruct Ha|].
    inversion S as [|? ? Sxs Fx]; subst.
    cbn [firstn skipn] in *. destruct Ha as [->|Ha].
    + rewrite Forall_forall in Fx. apply Fx.
      rewrite <- (firstn_skipn n xs). apply in_or_app. now right.
    + eapply IH; eauto.
Qed.

Lemma StronglySorted_suffix l1 : forall l2,
  StronglySorted R (l1 ++ l2) -> StronglySorted R l2.
Proof.
  induction l1 as [|x xs IH]; intros l2 S; [exact S|].
  inversion S; subst. now apply IH.
Qed.

(** In a sorted list, [b] stands before every [a] it is not dominated by. *)
Lemma StronglySorted_before l a b :
  StronglySorted R l -> In a l -> In b l -> ~ R a b -> a <> b ->
  exists l1 l2 l3, l = l1 ++ b :: l2 ++ a :: l3.
Proof.
  intros S Ha Hb N D.
  destruct (in_split a l Ha) as (l1 & l3 & ->).
  apply in_app_or in Hb. destruct Hb as [Hb|[Hb|Hb]].
  - destruct (in_split b l1 Hb) as (l1' & l2 & ->).
    exists l1', l2, l3. now rewrite <- app_assoc.
  - contradiction.
  - exfalso. apply N.
    apply StronglySorted_suffix in S.
    inversion S as [|? ? _ F]; subst.
    rewrite Forall_forall in F. now apply F.
Qed.

End SortedLists.

(** ** SessionSelector *)

Lemma slice0_positive {A : Type} (l : list A) (stop : Z) :
  0 < stop -> slice0 l stop = firstn (Z.to_nat stop) l.
Proof.
  intros H. unfold slice0.
  destruct (Z.ltb_spec stop 0); [lia|].
  destruct (Z.le_ge_cases stop (Z.of_nat (length l))).
  - now rewrite Z.min_l.
  - rewrite Z.min_r, Nat2Z.id by assumption.
    rewrite !firstn_all2; [reflexivity|lia|lia].
Qed.

Lemma hasHistory_true x : hasHistory x = true <-> 0 < or0 (totalWrong x).
Proof. unfold hasHistory. rewrite Z.gtb_lt. reflexivity. Qed.

Lemma score_of_timestamp now x t :
  lastWrongAt x = Timestamp t -> t <> 0 ->
  score now x
  = Float64.add (Float64.of_Z (or0 (totalWrong x) * 2))
      (Float64.div (Float64.of_Z (now - t)) (Float64.of_Z ONE_DAY)).
Proof.
  intros H N. unfold score. rewrite H.
  destruct (Z.eqb_spec t 0); [contradiction|reflexivity].
Qed.

Lemma of_Z_ONE_DAY :
  Float64.of_Z ONE_DAY = S754_finite false 5798205849600000 (-26).
Proof. reflexivity. Qed.

(** The score of a word with history is a regular number. *)
Lemma score_regular now x :
  0 < or0 (totalWrong x) < 2 ^ 52 -> Float64.regular (score now x) = true.
Proof.
  intros H. unfold score.
  destruct (of_Z_finite (or0 (totalWrong x) * 2) ltac:(lia)) as (m & e & E).
  pose proof (of_Z_regular (or0 (totalWrong x) * 2)) as R.
  rewrite E in *. apply add_finite_regular; [exact R|].
  rewrite of_Z_ONE_DAY. apply div_regular, of_Z_not_nan.
Qed.

Lemma handleSmartReview_session st w :
  filter hasHistory (words st) <> [] ->
  handleSmartReview st w =
  (setView DICTATION
     (setSessionWords
        (slice0 (sortBy (descendingBy (score (now_of w)))
                   (filter hasHistory (words st)))
           (if maxReviewBatchSize (settings st) =? 0 then 10
            else maxReviewBatchSize (settings st))) st),
   tick w).
Proof.
  intros H. unfold handleSmartReview, bind, Date_now.
  destruct (filter hasHistory (words st)) as [|c cs] eqn:E; [contradiction|].
  cbn [length Nat.eqb].
  change (fun a b : WordItem =>
            ret (Float64.sub (score (clock w (reads w)) b)
                   (score (clock w (reads w)) a)))
    with (fun a b : WordItem =>
            ret (descendingBy (score (clock w (reads w))) a b)).
  rewrite Array_sort_pure. reflexivity.
Qed.

Lemma handleSmartReview_empty st w :
  filter hasHistory (words st) = [] ->
  handleSmartReview st w = (alert NO_HISTORY_MESSAGE st, tick w).
Proof.
  intros H. unfold handleSmartReview, bind, Date_now. now rewrite H.
Qed.

(** C4.  Smart review, when some word has history, the batch size is a
    non-negative integer ([0] standing for the default 10) and the error
    counts are safe integers:
    - the candidates are exactly the words with [totalWrong > 0];
    - a candidate with a recorded [lastWrongAt] scores
      [totalWrong * 2 + (now - lastWrongAt) / ONE_DAY], in binary64;
    - the candidates are put in descending score order, equal scores in
      input order, and the session is the first [limit] of them;
    - so the session has [min limit (number of candidates)] words, each
      scoring at least as much as every candidate left out, and exactly 10
      words for 15 candidates and batch size 10;
    - a candidate [a] wrong 3 times, last one day ago, scores 7, a candidate
      [b] wrong once, last ten days ago, scores 12, and [b] is ordered before
      [a]. *)
Theorem smart_review (st : App) (w : World) :
  let now := now_of w in
  let candidates := filter hasHistory (words st) in
  let limit :=
    if maxReviewBatchSize (settings st) =? 0 then 10
    else maxReviewBatchSize (settings st) in
  let st' := fst (handleSmartReview st w) in
  candidates <> [] ->
  0 <= maxReviewBatchSize (settings st) ->
  Forall (fun x => or0 (totalWrong x) < 2 ^ 52) candidates ->
  (forall x, In x candidates <-> In x (words st) /\ 0 < or0 (totalWrong x)) /\
  (forall x t, lastWrongAt x = Timestamp t -> t <> 0 ->
     score now x
     = Float64.add (Float64.of_Z (or0 (totalWrong x) * 2))
         (Float64.div (Float64.of_Z (now - t)) (Float64.of_Z ONE_DAY))) /\
  exists sorted,
    Permutation sorted candidates /\
    Descending now sorted /\
    TiesInOrderOf now candidates sorted /\
    sessionWords st' = firstn (Z.to_nat limit) sorted /\
    view st' = DICTATION /\
    length (sessionWords st') = Nat.min (Z.to_nat limit) (length candidates) /\
    (forall a b, In a (sessionWords st') -> In b (skipn (Z.to_nat limit) sorted) ->
       Float64.le (score now b) (score now a)) /\
    (length candidates = 15%nat -> limit = 10 ->
       length (sessionWords st') = 10%nat) /\
    (forall a b, In a candidates -> In b candidates ->
       10 * ONE_DAY < now ->
       totalWrong a = Some 3 -> lastWrongAt a = Timestamp (now - ONE_DAY) ->
       totalWrong b = Some 1 -> lastWrongAt b = Timestamp (now - 10 * ONE_DAY) ->
       score now a = Float64.of_Z 7 /\ score now b = Float64.of_Z 12 /\
       exists l1 l2 l3, sorted = l1 ++ b :: l2 ++ a :: l3).
Proof.
  intros now candidates limit st' NE NN Safe.
  assert (0 < limit) as L
    by (subst limit;
        destruct (Z.eqb_spec (maxReviewBatchSize (settings st)) 0); lia).
  assert (forall x, In x candidates
                    <-> In x (words st) /\ 0 < or0 (totalWrong x)) as C.
  { intros x. subst candidates. rewrite filter_In, hasHistory_true.
    reflexivity. }
  assert (Forall (fun x => Float64.regular (score now x) = true) candidates) as R.
  { rewrite Forall_forall in *. intros x Hx. apply score_regular.
    split; [now apply C|now apply Safe]. }
  split; [exact C|]. split; [intros x t; apply score_of_timestamp|].
  exists (sortBy (descendingBy (score now)) candidates).
  assert (sessionWords st'
          = firstn (Z.to_nat limit)
              (sortBy (descendingBy (score now)) candidates)) as S.
  { subst st'. rewrite handleSmartReview_session by exact NE.
    cbn [fst setView setSessionWords sessionWords].
    now apply slice0_positive. }
  assert (Permutation (sortBy (descendingBy (score now)) candidates) candidates)
    as P by apply sortBy_Permutation.
  assert (Descending now (sortBy (descendingBy (score now)) candidates)) as D
    by now apply sortBy_sorted.
  assert (length (sessionWords st')
          = Nat.min (Z.to_nat limit) (length candidates)) as Len.
  { rewrite S, length_firstn. now rewrite (Permutation_length P). }
  split; [exact P|]. split; [exact D|].
  split; [intros k; now apply sortBy_withKey|].
  split; [exact S|].
  split; [subst st'; now rewrite handleSmartReview_session by exact NE|].
  split; [exact Len|].
  split; [|split].
  - intros a b Ha Hb. rewrite S in Ha.
    apply (StronglySorted_firstn_skipn _ _ _ a b D Ha Hb).
  - intros H15 H10. rewrite Len, H15, H10. reflexivity.
  - intros a b Ia Ib Hnow Wa La Wb Lb.
    assert (score now a = Float64.of_Z 7) as SA.
    { rewrite (score_of_timestamp now a (now - ONE_DAY))
        by (assumption || (unfold ONE_DAY in *; lia)).
      rewrite Wa. cbn [or0].
      replace (now - (now - ONE_DAY)) with ONE_DAY by lia.
      reflexivity. }
    assert (score now b = Float64.of_Z 12) as SB.
    { rewrite (score_of_timestamp now b (now - 10 * ONE_DAY))
        by (assumption || (unfold ONE_DAY in *; lia)).
      rewrite Wb. cbn [or0].
      replace (now - (now - 10 * ONE_DAY)) with (10 * ONE_DAY) by lia.
      reflexivity. }
    split; [exact SA|]. split; [exact SB|].
    apply (StronglySorted_before _ _ a b D).
    + now rewrite P.
    + now rewrite P.
    + unfold dominates, Float64.le. rewrite SA, SB.
      intros N. now apply N.
    + intros ->. rewrite SA in SB. discriminate SB.
Qed.

Example smart_review_sample :
  sessionWords (fst (handleSmartReview sample_app sample_world))
  = [sample_B; sample_A].
Proof. reflexivity. Qed.

Lemma smart_review_witness :
  filter hasHistory (words fifteen_app) <> [] /\
  0 <= maxReviewBatchSize (settings fifteen_app) /\
  Forall (fun x => or0 (totalWrong x) < 2 ^ 52)
    (filter hasHistory (words fifteen_app)) /\
  length (sessionWords (fst (handleSmartReview fifteen_app sample_world)))
  = 10%nat.
Proof.
  assert (filter hasHistory (words fifteen_app) <> []) as NE by discriminate.
  assert (0 <= maxReviewBatchSize (settings fifteen_app)) as NN by (simpl; lia).
  assert (Forall (fun x => or0 (totalWrong x) < 2 ^ 52)
            (filter hasHistory (words fifteen_app))) as Safe
    by (simpl; repeat constructor).
  split; [exact NE|]. split; [exact NN|]. split; [exact Safe|].
  destruct (smart_review fifteen_app sample_world NE NN Safe)
    as (_ & _ & sorted & _ & _ & _ & _ & _ & _ & _ & H15 & _).
  apply H15; reflexivity.
Defined.

Example smart_review_fifteen :
  length (filter hasHistory (words fifteen_app)) = 15%nat /\
  sessionWords (fst (handleSmartReview fifteen_app sample_world))
  = firstn 10 (rev fifteen_candidates).
Proof. split; reflexivity. Qed.

Lemma isDue_true now x : isDue now x = true <-> nextReview x <= now.
Proof. unfold isDue. apply Z.leb_le. Qed.

(** C6.  The due words are exactly the words with [nextReview <= now]: a
    word due at [now] itself is selected, a word due one millisecond later is
    not. *)
Theorem all_due_selection (st : App) (w : World) (x : WordItem) :
  let now := now_of w in
  let due := fst (allDueWords st w) in
  (In x due <-> In x (words st) /\ nextReview x <= now) /\
  (In x (words st) -> nextReview x = now -> In x due) /\
  (nextReview x = now + 1 -> ~ In x due).
Proof.
  intros now due.
  assert (In x due <-> In x (words st) /\ nextReview x <= now) as I.
  { subst due. unfold allDueWords, bind, Date_now, ret. cbn [fst].
    rewrite filter_In, isDue_true. reflexivity. }
  split; [exact I|]. split.
  - intros Hx E. apply I. split; [exact Hx|lia].
  - intros E Hx. apply I in Hx. lia.
Qed.

Example all_due_boundary :
  let now := now_of sample_world in
  let on_time := newWordItem "a" "at" "T" now in
  let late := newWordItem "b" "by" "T" (now + 1) in
  let st := setWords [late; on_time] sample_app in
  fst (allDueWords st sample_world) = [on_time].
Proof. reflexivity. Qed.

(** C7.  Reviewing a group with the only-errors flag keeps the group's words
    with [nextReview <= now].  When some word qualifies, the session starts
    with them.  When none does, the selection is empty, the "nothing to
    review" dialog is shown, and no session starts: session words and view
    stay as they were. *)
Theorem review_group_only_errors
    (groupWords : list WordItem) (st : App) (w : World) :
  let now := now_of w in
  let targetWords := filter (isDue now) groupWords in
  let st' := fst (handleReviewGroup groupWords true st w) in
  (forall x, In x targetWords <-> In x groupWords /\ nextReview x <= now) /\
  (targetWords <> [] ->
     sessionWords st' = targetWords /\ view st' = DICTATION /\
     alerts st' = alerts st) /\
  ((forall x, In x groupWords -> now < nextReview x) ->
     targetWords = [] /\
     alerts st' = alerts st ++ [NO_ERRORS_MESSAGE] /\
     sessionWords st' = sessionWords st /\ view st' = view st).
Proof.
  cbv zeta. unfold handleReviewGroup, bind, Date_now, ret.
  fold (now_of w). set (now := now_of w).
  assert (forall x, In x (filter (isDue now) groupWords)
                    <-> In x groupWords /\ nextReview x <= now) as I.
  { intros x. now rewrite filter_In, isDue_true. }
  split; [exact I|].
  destruct (filter (isDue now) groupWords) as [|t ts]; cbn; split.
  - intros NE. contradiction.
  - intros _. repeat split.
  - intros _. repeat split.
  - intros None. exfalso.
    destruct (proj1 (I t) (or_introl eq_refl)) as [Hin Hle].
    specialize (None t Hin). lia.
Qed.

Example review_group_some_due :
  let st' := fst (handleReviewGroup [sample_A; sample_word; sample_B] true
                    sample_app (tick sample_world)) in
  view st' = DICTATION /\
  sessionWords st' = [sample_A; sample_word; sample_B] /\ alerts st' = [].
Proof. repeat split. Qed.

Example review_group_nothing_due :
  let later := newWordItem "c" "cat" "T" (sample_now + 5) in
  let st' := fst (handleReviewGroup [later] true sample_app sample_world) in
  view st' = DASHBOARD /\ sessionWords st' = [] /\
  alerts st' = [NO_ERRORS_MESSAGE].
Proof. repeat split. Qed.

(** C9.  With the SHUFFLE order the play queue is a permutation of the
    session words, whatever the random draws: same words, same multiset of
    ids, same length. *)
Theorem shuffle_is_permutation
    (ws : list WordItem) (cfg : DictationSettings) (w : World) :
  order cfg = SHUFFLE ->
  let queue := fst (initQueue ws cfg w) in
  Permutation queue ws /\
  Permutation (map id queue) (map id ws) /\
  length queue = length ws.
Proof.
  intros H queue.
  assert (Permutation queue ws) as P.
  { subst queue. unfold initQueue. rewrite H. apply Array_sort_Permutation. }
  split; [exact P|]. split.
  - now apply Permutation_map.
  - now apply Permutation_length.
Qed.

Lemma shuffle_is_permutation_witness :
  order (withOrder SHUFFLE DEFAULT_SETTINGS) = SHUFFLE /\
  length (fst (initQueue fifteen_candidates (withOrder SHUFFLE DEFAULT_SETTINGS)
                 sample_world))
  = length fifteen_candidates.
Proof.
  split; [reflexivity|].
  apply (shuffle_is_permutation fifteen_candidates
           (withOrder SHUFFLE DEFAULT_SETTINGS) sample_world).
  reflexivity.
Defined.

Example shuffle_sample :
  map id (fst (initQueue [sample_A; sample_word; sample_B]
                 (withOrder SHUFFLE DEFAULT_SETTINGS) sample_world))
  <> map id [sample_A; sample_word; sample_B].
Proof. vm_compute. discriminate. Qed.

(** ** Manual override *)

(** C5, as the code has it.  The manual override of the target word sets
    streak, interval and [nextReview] to fixed values for both statuses
    (REVIEW: 0, 0 and now; MASTERED: 10, 30 and now plus 30 days).  The ease
    factor is reset to 2.5 by REVIEW only; MASTERED leaves it as it was and
    stamps [lastReviewed]. *)
Theorem manual_override
    (target r : WordItem) (status : Status) (w : World) :
  id r = id target ->
  let r' := fst (updateWordStatus target status r w) in
  match status with
  | REVIEW =>
      streak r' = 0 /\ interval r' = 0 /\ nextReview r' = now_of w /\
      easeFactor r' = Float64.lit_2_5 /\
      lastReviewed r' = lastReviewed r
  | MASTERED =>
      streak r' = 10 /\ interval r' = 30 /\
      nextReview r' = now_of w + 30 * ONE_DAY /\
      easeFactor r' = easeFactor r /\
      lastReviewed r' = Some (now_of (tick w))
  end.
Proof.
  intros E. cbv zeta. unfold updateWordStatus.
  rewrite E, String.eqb_refl.
  destruct status; repeat split.
Qed.

Lemma manual_override_witness :
  id sample_A = id sample_A /\
  easeFactor (fst (updateWordStatus sample_A REVIEW sample_A sample_world))
  = Float64.lit_2_5.
Proof.
  split; [reflexivity|].
  apply (manual_override sample_A sample_A REVIEW sample_world). reflexivity.
Defined.

(** C5, as stated, fails for MASTERED: two records that differ in their
    ease factor only still differ in it after the override. *)
Lemma mastered_keeps_easeFactor :
  let r1 := withEaseFactor Float64.lit_2_5 sample_A in
  let r2 := withEaseFactor Float64.lit_1_3 sample_A in
  lastReviewed r1 = lastReviewed r2 /\ nextReview r1 = nextReview r2 /\
  streak r1 = streak r2 /\ interval r1 = interval r2 /\
  easeFactor (fst (updateWordStatus sample_A MASTERED r1 sample_world))
  <> easeFactor (fst (updateWordStatus sample_A MASTERED r2 sample_world)).
Proof. cbn. repeat split. discriminate. Qed.

Lemma mapM_length {A B : Type} (f : A -> M B) : forall l w,
  length (fst (mapM f l w)) = length l.
Proof.
  induction l as [|x xs IH]; intros w; cbn [mapM]; [reflexivity|].
  unfold bind, ret. destruct (f x w) as [y w1].
  specialize (IH w1). destruct (mapM f xs w1) as [ys w2].
  cbn [fst length] in *. now rewrite IH.
Qed.

Lemma mapM_Forall {A B : Type} (f : A -> M B) (P : A -> Prop) (Q : B -> Prop) :
  (forall x w, P x -> Q (fst (f x w))) ->
  forall l w, Forall P l -> Forall Q (fst (mapM f l w)).
Proof.
  intros H. induction l as [|x xs IH]; intros w F; cbn [mapM].
  - constructor.
  - inversion F as [|? ? Px Pxs]; subst.
    unfold bind, ret. specialize (H x w Px).
    destruct (f x w) as [y w1].
    specialize (IH w1 Pxs). destruct (mapM f xs w1) as [ys w2].
    cbn [fst] in *. now constructor.
Qed.

Lemma handleUpdateWordStatus_words target status st w :
  words (fst (handleUpdateWordStatus target status st w))
  = fst (mapM (updateWordStatus target status) (words st) w).
Proof.
  unfold handleUpdateWordStatus, bind, ret.
  now destruct (mapM _ (words st) w).
Qed.

Lemma handleUpdateWordStatus_easeFactor target status st w :
  Forall (fun r => Float64.geb (easeFactor r) Float64.lit_1_3 = true) (words st) ->
  Forall (fun r => Float64.geb (easeFactor r) Float64.lit_1_3 = true)
    (words (fst (handleUpdateWordStatus target status st w))).
Proof.
  intros F. rewrite handleUpdateWordStatus_words.
  apply mapM_Forall with (2 := F).
  intros x w'. apply updateWordStatus_easeFactor.
Qed.

Lemma handleUpdateWordStatus_others target status st w :
  Forall (fun r => id r <> id target) (words st) ->
  words (fst (handleUpdateWordStatus target status st w)) = words st.
Proof.
  rewrite handleUpdateWordStatus_words. generalize w.
  induction (words st) as [|x xs IH]; intros w' F; [reflexivity|].
  inversion F as [|? ? Hx Hxs]; subst. cbn [mapM]. unfold bind at 1.
  unfold updateWordStatus at 1.
  destruct (String.eqb_spec (id x) (id target)); [contradiction|].
  unfold ret at 1. unfold bind, ret. specialize (IH w' Hxs).
  destruct (mapM _ xs w') as [ys w2]. cbn [fst] in *. now rewrite IH.
Qed.

(** * More of App.tsx: properties *)

(** ** Correction pass *)

Lemma applyResult_world results x w :
  snd (applyResult results x w)
  = match findResult results x with
    | Some _ => tick w
    | None => w
    end.
Proof. unfold applyResult. now destruct (findResult results x). Qed.

Lemma applyResult_identity results x w :
  identity (fst (applyResult results x w)) = identity x.
Proof. unfold applyResult. now destruct (findResult results x). Qed.

(** Where the [i]-th word ends up: a word without result is left alone, a word
    with results gets the outcome of the first of them, at the clock reading
    that follows those of the corrected words before it. *)
Lemma mapM_applyResult_nth results : forall l w i x,
  nth_error l i = Some x ->
  nth_error (fst (mapM (applyResult results) l w)) i
  = Some (fst (applyResult results x
                 (Nat.iter (correctedBefore results l i) tick w))).
Proof.
  induction l as [|y ys IH]; intros w i x H; [destruct i; discriminate|].
  cbn [mapM]. unfold bind at 1.
  pose proof (applyResult_world results y w) as W.
  destruct (applyResult results y w) as [y' w1] eqn:E. cbn [snd] in W.
  unfold bind, ret. specialize (IH w1).
  destruct (mapM (applyResult results) ys w1) as [ys' w2]. cbn [fst] in *.
  destruct i as [|i]; cbn [nth_error] in *.
  - injection H as <-.
    replace y' with (fst (applyResult results y w)) by now rewrite E.
    reflexivity.
  - rewrite (IH i x H). do 3 f_equal.
    unfold correctedBefore. cbn [firstn filter].
    destruct (findResult results y); cbn [length]; subst w1; symmetry.
    + apply Nat.iter_succ_r.
    + reflexivity.
Qed.

(** Saving the correction reschedules each word by the first result that
    carries its id, later results for the same id are ignored, and a word
    without a result is kept as it is.  The clock is read once for each
    corrected word, in the order of the collection. *)
Theorem correction_first_result_wins
    (results : list CorrectionResult) (st : App) (w : World)
    (i : nat) (x : WordItem) :
  nth_error (words st) i = Some x ->
  let st' := fst (handleCorrectionFinish results st w) in
  let wi := Nat.iter (correctedBefore results (words st) i) tick w in
  nth_error (words st') i
  = Some match find (fun r => String.eqb (result_id r) (id x)) results with
         | Some r => fst (calculateNextReview x (result_correct r) wi)
         | None => x
         end.
Proof.
  intros H. cbv zeta. unfold handleCorrectionFinish, bind, ret.
  pose proof (mapM_applyResult_nth results (words st) w i x H) as N.
  destruct (mapM (applyResult results) (words st) w) as [l w']. cbn [fst] in *.
  cbn [setView setWords words]. rewrite N. unfold applyResult, findResult.
  now destruct (find _ results).
Qed.

Lemma correction_first_result_wins_witness :
  nth_error (words sample_app) 1 = Some sample_word /\
  nth_error
    (words (fst (handleCorrectionFinish
                   [{| result_id := "word-1"; result_correct := false |};
                    {| result_id := "word-1"; result_correct := true |}]
                   sample_app sample_world))) 1
  = Some (fst (calculateNextReview sample_word false sample_world)).
Proof.
  assert (nth_error (words sample_app) 1 = Some sample_word) as H
    by reflexivity.
  split; [exact H|].
  exact (correction_first_result_wins
           [{| result_id := "word-1"; result_correct := false |};
            {| result_id := "word-1"; result_correct := true |}]
           sample_app sample_world 1 sample_word H).
Defined.

Lemma mapM_identity {A : Type} (f : WordItem -> M WordItem) (key : WordItem -> A) :
  (forall x w, key (fst (f x w)) = key x) ->
  forall l w, map key (fst (mapM f l w)) = map key l.
Proof.
  intros H. induction l as [|x xs IH]; intros w; cbn [mapM]; [reflexivity|].
  unfold bind, ret. specialize (H x w). destruct (f x w) as [y w1].
  specialize (IH w1). destruct (mapM f xs w1) as [ys w2].
  cbn [fst map] in *. now rewrite H, IH.
Qed.

Lemma handleCorrectionFinish_words results st w :
  words (fst (handleCorrectionFinish results st w))
  = fst (mapM (applyResult results) (words st) w).
Proof.
  unfold handleCorrectionFinish, bind, ret.
  now destruct (mapM _ (words st) w).
Qed.

(** Saving the correction keeps the collection in shape: the same words in
    the same order, each with its id, text, group and creation time, so ids
    that were distinct stay distinct; it leaves session, settings and dialogs
    alone and returns to the dashboard. *)
Theorem correction_keeps_identity
    (results : list CorrectionResult) (st : App) (w : World) :
  let st' := fst (handleCorrectionFinish results st w) in
  map identity (words st') = map identity (words st) /\
  length (words st') = length (words st) /\
  (NoDup (map id (words st)) -> NoDup (map id (words st'))) /\
  view st' = DASHBOARD /\
  sessionWords st' = sessionWords st /\
  settings st' = settings st /\
  alerts st' = alerts st.
Proof.
  cbv zeta.
  assert (map identity (words (fst (handleCorrectionFinish results st w)))
          = map identity (words st)) as I.
  { rewrite handleCorrectionFinish_words.
    apply mapM_identity. apply applyResult_identity. }
  assert (map id (words (fst (handleCorrectionFinish results st w)))
          = map id (words st)) as J.
  { rewrite handleCorrectionFinish_words.
    apply mapM_identity. intros x w'.
    pose proof (applyResult_identity results x w') as E.
    unfold identity in E. congruence. }
  split; [exact I|]. split.
  { rewrite <- (length_map identity), I. apply length_map. }
  split; [now rewrite J|].
  unfold handleCorrectionFinish, bind, ret.
  destruct (mapM _ (words st) w). repeat split.
Qed.

(** Words nobody corrected are handed back as they are, and the clock is not
    even read: an empty result list changes nothing but the view. *)
Theorem correction_without_results
    (results : list CorrectionResult) (st : App) (w : World) :
  (forall x, In x (words st) -> findResult results x = None) ->
  handleCorrectionFinish results st w = (setView DASHBOARD st, w).
Proof.
  intros H. unfold handleCorrectionFinish, bind, ret.
  assert (mapM (applyResult results) (words st) w = (words st, w)) as E.
  { revert H. generalize (words st) as l.
    induction l as [|x xs IH]; intros H; [reflexivity|].
    cbn [mapM]. unfold bind, ret. unfold applyResult at 1.
    rewrite (H x (or_introl eq_refl)). unfold ret at 1.
    rewrite IH by (intros y Hy; apply H; now right). reflexivity. }
  rewrite E. destruct st; reflexivity.
Qed.

Lemma correction_without_results_witness :
  (forall x, In x (words sample_app) -> findResult [] x = None) /\
  handleCorrectionFinish [] sample_app sample_world
  = (setView DASHBOARD sample_app, sample_world).
Proof.
  assert (forall x, In x (words sample_app) -> findResult [] x = None) as H
    by reflexivity.
  split; [exact H|].
  apply (correction_without_results [] sample_app sample_world H).
Defined.

Lemma applyResult_easeFactor results x w :
  Float64.geb (easeFactor x) Float64.lit_1_3 = true ->
  Float64.geb (easeFactor (fst (applyResult results x w))) Float64.lit_1_3
  = true.
Proof.
  intros H. unfold applyResult. destruct (findResult results x); [|exact H].
  now apply calculateNextReview_easeFactor.
Qed.

(** The floor of the ease factor holds for the whole collection through both
    handlers that reschedule words. *)
Theorem collection_keeps_easeFactor_floor
    (results : list CorrectionResult) (target : WordItem) (status : Status)
    (st : App) (w : World) :
  Forall (fun r => Float64.geb (easeFactor r) Float64.lit_1_3 = true)
    (words st) ->
  Forall (fun r => Float64.geb (easeFactor r) Float64.lit_1_3 = true)
    (words (fst (handleCorrectionFinish results st w))) /\
  Forall (fun r => Float64.geb (easeFactor r) Float64.lit_1_3 = true)
    (words (fst (handleUpdateWordStatus target status st w))).
Proof.
  intros F. split.
  - rewrite handleCorrectionFinish_words.
    apply mapM_Forall with (2 := F).
    intros x w'. apply applyResult_easeFactor.
  - now apply handleUpdateWordStatus_easeFactor.
Qed.

Lemma collection_keeps_easeFactor_floor_witness :
  Forall (fun r => Float64.geb (easeFactor r) Float64.lit_1_3 = true)
    (words sample_app) /\
  Forall (fun r => Float64.geb (easeFactor r) Float64.lit_1_3 = true)
    (words (fst (handleCorrectionFinish
                   [{| result_id := "A"; result_correct := false |}]
                   sample_app sample_world))).
Proof.
  assert (Forall (fun r => Float64.geb (easeFactor r) Float64.lit_1_3 = true)
            (words sample_app)) as F
    by (repeat constructor).
  split; [exact F|].
  destruct (collection_keeps_easeFactor_floor
              [{| result_id := "A"; result_correct := false |}]
              sample_A REVIEW sample_app sample_world F) as [C _].
  exact C.
Defined.

(** ** What an answer does to the selections *)

Module Float64Bounds.
Import Float64 Float64Facts.

(** The rounded product is at least a quarter of the interval's power of
    two: for [2^k <= n] it is at least [2^(k-1)]. *)
Lemma Math_round_mul_1_3_lower n k :
  3 <= k -> 2 ^ k <= n < 2 ^ 53 ->
  2 ^ (k - 1) <= Math_round (mul (of_Z n) lit_1_3).
Proof.
  intros Hk [Hl H53].
  assert (0 < 2 ^ k) by (apply Z.pow_pos_nonneg; lia).
  destruct n as [|p|p]; try lia.
  destruct (of_Z_exact p H53) as (m & -> & _ & Bm).
  set (D := Z.pos (digits2_pos p)).
  assert (k < D <= 53) as BD
    by (split; [now apply digits2_pos_ge|now apply digits2_pos_le]).
  unfold mul, lit_1_3, SFmul. cbn [xorb].
  set (c := 5854679515581645%positive).
  assert (2 ^ 52 <= Z.pos c < 2 ^ 53) as Bc by (cbn; lia).
  assert (2 ^ 104 <= Z.pos (m * c) < 2 ^ 106) as BM.
  { rewrite Pos2Z.inj_mul.
    change (2 ^ 104) with (2 ^ 52 * 2 ^ 52).
    change (2 ^ 106) with (2 ^ 53 * 2 ^ 53).
    split; [apply Z.mul_le_mono_nonneg; lia|apply Z.mul_lt_mono_nonneg; lia]. }
  assert (105 <= Z.pos (digits2_pos (m * c)) <= 106) as BDM.
  { split; [|apply digits2_pos_le; lia].
    assert (104 < Z.pos (digits2_pos (m * c))); [apply digits2_pos_ge|]; lia. }
  destruct (binary_round_aux_large false (m * c) (D - 53 + -52) loc_Exact)
    as (m2 & e2 & -> & Bm2 & Be2).
  - lia.
  - unfold emin, SpecFloat.emin, prec, emax. lia.
  - unfold emax, prec. lia.
  - cbn [Math_round cond_Zopp].
    assert (k - 52 <= e2) as Le by lia.
    destruct (Z.leb_spec 0 e2) as [P|N].
    + assert (2 ^ (k - 1) <= 2 ^ 51) by (apply Z.pow_le_mono_r; lia).
      pose proof (Z.pow_pos_nonneg 2 e2 ltac:(lia) P) as P2.
      set (a := 2 ^ e2) in *. set (b := 2 ^ (k - 1)) in *.
      clearbody a b. nia.
    + (* value = m2 / 2^(-e2), at least 2^51 / 2^(52 - k) *)
      assert (0 < 2 ^ (- e2 + 1)) as P1 by (apply Z.pow_pos_nonneg; lia).
      assert (0 < 2 ^ (- e2)) as P0 by (apply Z.pow_pos_nonneg; lia).
      apply Z.div_le_lower_bound; [exact P1|].
      assert (2 ^ (- e2 + 1) * 2 ^ (k - 1) <= 2 ^ 52) as Q.
      { rewrite <- Z.pow_add_r by lia. apply Z.pow_le_mono_r; lia. }
      change (2 ^ 52) with (2 * 2 ^ 51) in Q. lia.
Qed.

(** The interval a correct answer leads to is never below two weeks. *)
Lemma Math_round_mul_1_3_two_weeks n :
  14 < n < 2 ^ 53 -> 14 <= Math_round (mul (of_Z n) lit_1_3).
Proof.
  intros [H14 H53].
  destruct (Z.lt_ge_cases n (Z.of_nat checked_days)) as [S|L].
  - rewrite round_mul_agrees by lia. rewrite exact_round_mul_1_3.
    apply Z.div_le_lower_bound; lia.
  - pose proof (Math_round_mul_1_3_lower n 11 ltac:(lia)) as B.
    unfold checked_days in L. change (2 ^ (11 - 1)) with 1024 in B.
    change (2 ^ 11) with 2048 in B. lia.
Qed.

End Float64Bounds.

Import Float64Bounds.

(** A wrong answer brings the word back: from the moment of the answer on it
    is due, it is a candidate of the smart review, and it no longer counts as
    mastered. *)
Theorem wrong_answer_comes_back (r : WordItem) (w : World) (t : Z) :
  0 <= or0 (totalWrong r) ->
  now_of w <= t ->
  let r' := fst (calculateNextReview r false w) in
  isDue t r' = true /\ hasHistory r' = true /\ isLearned r' = false.
Proof.
  intros H0 Ht. cbv zeta.
  unfold isDue, hasHistory, isLearned, calculateNextReview, bind, Date_now, ret.
  cbn [fst nextReview totalWrong streak s_interval s_totalWrong s_streak or0].
  cbn [Z.eqb]. repeat split.
  - now apply Z.leb_le.
  - apply Z.gtb_lt. lia.
Qed.

Lemma wrong_answer_comes_back_witness :
  0 <= or0 (totalWrong sample_mastered) /\
  now_of sample_world <= sample_now + ONE_DAY /\
  isDue (sample_now + ONE_DAY)
    (fst (calculateNextReview sample_mastered false sample_world)) = true.
Proof.
  assert (0 <= or0 (totalWrong sample_mastered)) as H0 by (simpl; lia).
  assert (now_of sample_world <= sample_now + ONE_DAY) as Ht
    by (vm_compute; discriminate).
  split; [exact H0|]. split; [exact Ht|].
  apply (wrong_answer_comes_back sample_mastered sample_world _ H0 Ht).
Defined.

Lemma calculateNextReview_rests (r : WordItem) (w : World) (t : Z) :
  interval r < 2 ^ 53 ->
  t < now_of w + 14 * ONE_DAY ->
  isDue t (fst (calculateNextReview r true w)) = false /\
  isLearned (fst (calculateNextReview r true w)) = true /\
  14 <= interval (fst (calculateNextReview r true w)) /\
  hasHistory (fst (calculateNextReview r true w)) = hasHistory r.
Proof.
  intros Hi Ht.
  assert (14 <= interval (fst (calculateNextReview r true w))) as I.
  { rewrite calculateNextReview_interval_correct.
    destruct (Z.gtb_spec (interval r) 14); [|lia].
    apply Math_round_mul_1_3_two_weeks. lia. }
  split; [|split; [|split; [exact I|]]].
  - unfold isDue. apply Z.leb_gt.
    remember (interval (fst (calculateNextReview r true w))) as i' eqn:Ei.
    assert (nextReview (fst (calculateNextReview r true w))
            = now_of w + i' * ONE_DAY) as N.
    { subst i'. unfold calculateNextReview, bind, Date_now, ret.
      cbn [fst nextReview interval s_interval].
      unfold calculateNextReview, bind, Date_now, ret in I.
      cbn [fst interval s_interval] in I.
      destruct (Z.eqb_spec
                  (if interval r >? 14
                   then Float64.Math_round
                          (Float64.mul (Float64.of_Z (interval r))
                             Float64.lit_1_3)
                   else 14) 0) as [E|_]; [lia|reflexivity]. }
    rewrite N. unfold ONE_DAY in *. lia.
  - unfold isLearned, calculateNextReview, bind, Date_now, ret.
    cbn [fst streak s_streak]. apply Z.gtb_lt. lia.
  - unfold hasHistory, calculateNextReview, bind, Date_now, ret.
    cbn [fst totalWrong s_totalWrong or0]. reflexivity.
Qed.

(** A right answer puts the word to rest: it counts as mastered and is not
    due again before two weeks have passed; its error history is as before.
    The next review time is taken in the range where the sum the source
    computes is exact: a clock that is not negative and a sum below 2^53. *)
Theorem right_answer_rests (r : WordItem) (w : World) (t : Z) :
  interval r < 2 ^ 53 ->
  let r' := fst (calculateNextReview r true w) in
  0 <= now_of w ->
  now_of w + interval r' * ONE_DAY < 2 ^ 53 ->
  t < now_of w + 14 * ONE_DAY ->
  isDue t r' = false /\ isLearned r' = true /\
  14 <= interval r' /\ hasHistory r' = hasHistory r.
Proof.
  intros Hi r' _ _ Ht. now apply calculateNextReview_rests.
Qed.

Lemma right_answer_rests_witness :
  interval sample_mastered < 2 ^ 53 /\
  sample_now + 13 * ONE_DAY < now_of sample_world + 14 * ONE_DAY /\
  isDue (sample_now + 13 * ONE_DAY)
    (fst (calculateNextReview sample_mastered true sample_world)) = false.
Proof.
  assert (interval sample_mastered < 2 ^ 53) as Hi by reflexivity.
  assert (0 <= now_of sample_world) as H0 by (vm_compute; discriminate).
  assert (now_of sample_world
          + interval (fst (calculateNextReview sample_mastered true
                             sample_world)) * ONE_DAY < 2 ^ 53) as Hs
    by (vm_compute; reflexivity).
  assert (sample_now + 13 * ONE_DAY < now_of sample_world + 14 * ONE_DAY)
    as Ht by reflexivity.
  split; [exact Hi|]. split; [exact Ht|].
  destruct (right_answer_rests sample_mastered sample_world _ Hi H0 Hs Ht)
    as [D _].
  exact D.
Defined.

(** ** Manual override, at the handler *)

Lemma later_refl w : later w w.
Proof. unfold later. auto. Qed.

Lemma later_trans w1 w2 w3 : later w1 w2 -> later w2 w3 -> later w1 w3.
Proof. unfold later. intros (a & b & c & d) (e & f & g & h). repeat split; try congruence. lia. Qed.

Lemma mapM_nth_later {A B : Type} (f : A -> M B) :
  (forall x w, later w (snd (f x w))) ->
  forall l w i x,
    nth_error l i = Some x ->
    exists wi, later w wi /\
               nth_error (fst (mapM f l w)) i = Some (fst (f x wi)).
Proof.
  intros H. induction l as [|y ys IH]; intros w i x E;
    [destruct i; discriminate|].
  cbn [mapM]. unfold bind, ret. pose proof (H y w) as L.
  destruct (f y w) as [y' w1] eqn:F. cbn [snd] in L.
  specialize (IH w1).
  destruct (mapM f ys w1) as [ys' w2]. cbn [fst] in *.
  destruct i as [|i]; cbn [nth_error] in *.
  - injection E as <-. exists w. split; [apply later_refl|].
    now rewrite F.
  - destruct (IH i x E) as (wi & Lw & N). exists wi.
    split; [eapply later_trans; eassumption|exact N].
Qed.

Lemma updateWordStatus_later target status x w :
  later w (snd (updateWordStatus target status x w)).
Proof.
  unfold updateWordStatus.
  destruct (String.eqb (id x) (id target)); [|apply later_refl].
  destruct status; unfold later; cbn; repeat split; lia.
Qed.

(** Marking a word reaches every record that carries its id and no other:
    the records are overridden one by one, each at its own readings of the
    clock; all others are handed back untouched.  Order, ids, session, view
    and dialogs stay as they were. *)
Theorem status_update_touches_only_target
    (target : WordItem) (status : Status) (st : App) (w : World)
    (i : nat) (x : WordItem) :
  nth_error (words st) i = Some x ->
  let st' := fst (handleUpdateWordStatus target status st w) in
  (exists x',
      nth_error (words st') i = Some x' /\
      (id x <> id target -> x' = x) /\
      (id x = id target ->
       exists wi, later w wi /\
                  x' = fst (updateWordStatus target status x wi) /\
                  isLearned x' = match status with
                                 | MASTERED => true
                                 | REVIEW => false
                                 end)) /\
  map identity (words st') = map identity (words st) /\
  view st' = view st /\ sessionWords st' = sessionWords st /\
  alerts st' = alerts st.
Proof.
  intros H. cbv zeta. split; [|split].
  - rewrite handleUpdateWordStatus_words.
    destruct (mapM_nth_later (updateWordStatus target status)
                (updateWordStatus_later target status) (words st) w i x H)
      as (wi & L & N).
    exists (fst (updateWordStatus target status x wi)).
    split; [exact N|]. split.
    + intros D. unfold updateWordStatus.
      now destruct (String.eqb_spec (id x) (id target)).
    + intros E. exists wi. split; [exact L|]. split; [reflexivity|].
      unfold updateWordStatus. rewrite E, String.eqb_refl.
      now destruct status.
  - rewrite handleUpdateWordStatus_words. apply mapM_identity.
    intros y w'. unfold updateWordStatus.
    destruct (String.eqb (id y) (id target)); [|reflexivity].
    now destruct status.
  - unfold handleUpdateWordStatus, bind, ret.
    destruct (mapM _ (words st) w). repeat split.
Qed.

Lemma status_update_touches_only_target_witness :
  nth_error (words sample_app) 1 = Some sample_word /\
  nth_error
    (words (fst (handleUpdateWordStatus sample_A MASTERED sample_app
                   sample_world))) 1
  = Some sample_word.
Proof.
  assert (nth_error (words sample_app) 1 = Some sample_word) as H
    by reflexivity.
  split; [exact H|].
  destruct (status_update_touches_only_target sample_A MASTERED sample_app
              sample_world 1 sample_word H) as ((x' & N & D & _) & _).
  rewrite N. f_equal. apply D. discriminate.
Defined.

(** ** Saving and deleting words *)

Lemma NoDup_map_filter {A B : Type} (f : A -> B) (p : A -> bool) l :
  NoDup (map f l) -> NoDup (map f (filter p l)).
Proof.
  induction l as [|x xs IH]; intros N; [constructor|].
  cbn [map filter] in *. inversion N as [|? ? Nx Nxs]; subst.
  destruct (p x); [|now apply IH].
  cbn [map]. constructor; [|now apply IH].
  intros I. apply Nx. apply in_map_iff in I as (y & E & Hy).
  apply filter_In in Hy as [Hy _]. apply in_map_iff. eauto.
Qed.

Lemma NoDup_map_inj {A B : Type} (f : A -> B) l x y :
  NoDup (map f l) -> In x l -> In y l -> f x = f y -> x = y.
Proof.
  induction l as [|z zs IH]; intros N Hx Hy E; [destruct Hx|].
  cbn [map] in N. inversion N as [|? ? Nz Nzs]; subst.
  destruct Hx as [->|Hx], Hy as [->|Hy]; auto.
  - exfalso. apply Nz. rewrite E. now apply in_map.
  - exfalso. apply Nz. rewrite <- E. now apply in_map.
Qed.

Lemma find_text_spec old txt e :
  find (fun w => String.eqb (text w) txt) old = Some e ->
  In e old /\ text e = txt.
Proof.
  intros H. apply find_some in H as [I E]. now apply String.eqb_eq in E.
Qed.

Lemma newItems_ids u : forall inp c title now,
  map id (newItems u c title now inp) = map u (seq c (length inp)).
Proof.
  induction inp as [|t ts IH]; intros c title now; [reflexivity|].
  cbn [newItems map length seq]. now rewrite IH.
Qed.

Lemma newItems_text u : forall inp c title now,
  map text (newItems u c title now inp) = inp.
Proof.
  induction inp as [|t ts IH]; intros c title now; [reflexivity|].
  cbn [newItems map]. now rewrite IH.
Qed.

Lemma newItems_Forall u (P : WordItem -> Prop) title now :
  (forall i t, P (newWordItem i t title now)) ->
  forall inp c, Forall P (newItems u c title now inp).
Proof.
  intros H. induction inp as [|t ts IH]; intros c; constructor; auto.
Qed.

(** A new group is appended to the collection and becomes the session: one
    record per input word, in input order.  Each new record is due from the
    moment it is created, meets the data model, has no error history and is
    not mastered.  When the ids handed out by [uuidv4] are new and pairwise
    distinct, the ids of the collection stay pairwise distinct. *)
Theorem new_group_is_appended
    (uuidv4 : nat -> string) (inputWords : list string) (title : string)
    (ed : Editor) (w : World) :
  editingGroupTitle ed = None \/ editingGroupTitle ed = Some EmptyString ->
  let ed' := fst (handleSaveWords uuidv4 inputWords title ed w) in
  let st := app ed in
  let st' := app ed' in
  words st' = words st ++ sessionWords st' /\
  view st' = DICTATION /\
  editingGroupTitle ed' = editingGroupTitle ed /\
  map text (sessionWords st') = inputWords /\
  map id (sessionWords st') = map uuidv4 (seq 0 (length inputWords)) /\
  Forall (fun x =>
            groupTitle x = Some title /\ addedAt x = now_of w /\
            DataModel x /\ hasHistory x = false /\ isLearned x = false /\
            forall t, now_of w <= t -> isDue t x = true)
    (sessionWords st') /\
  (NoDup (map id (words st)) ->
   NoDup (map uuidv4 (seq 0 (length inputWords))) ->
   (forall k, (k < length inputWords)%nat ->
              ~ In (uuidv4 k) (map id (words st))) ->
   NoDup (map id (words st'))).
Proof.
  intros E. cbv zeta.
  assert (handleSaveWords uuidv4 inputWords title ed w
          = ({| app := setView DICTATION
                         (setSessionWords
                            (newItems uuidv4 0 title (now_of w) inputWords)
                            (setWords
                               (words (app ed)
                                ++ newItems uuidv4 0 title (now_of w) inputWords)
                               (app ed)));
                editingGroupTitle := editingGroupTitle ed |}, tick w)) as H.
  { unfold handleSaveWords, bind, Date_now, ret. now destruct E as [->| ->]. }
  rewrite H. cbn [fst app setView setSessionWords setWords words sessionWords
                  view editingGroupTitle].
  split; [reflexivity|]. split; [reflexivity|]. split; [reflexivity|].
  split; [apply newItems_text|]. split; [apply newItems_ids|]. split.
  - apply newItems_Forall. intros i t.
    split; [reflexivity|]. split; [reflexivity|].
    split; [apply DataModel_newWordItem|].
    split; [reflexivity|]. split; [reflexivity|].
    intros t' Ht. unfold isDue. cbn [newWordItem nextReview]. now apply Z.leb_le.
  - intros N U F. rewrite map_app, newItems_ids.
    apply NoDup_app; [exact N|exact U|].
    intros a Ia Ua. apply in_map_iff in Ua as (k & <- & Hk).
    apply in_seq in Hk. apply (F k); [lia|exact Ia].
Qed.

Lemma new_group_is_appended_witness :
  (editingGroupTitle sample_creator = None \/
   editingGroupTitle sample_creator = Some EmptyString) /\
  map text
    (sessionWords
       (app (fst (handleSaveWords sample_uuidv4 ["zeal"; "yield"]%string
                    "GRE" sample_creator sample_world))))
  = ["zeal"; "yield"]%string.
Proof.
  assert (editingGroupTitle sample_creator = None \/
          editingGroupTitle sample_creator = Some EmptyString) as E
    by (left; reflexivity).
  split; [exact E|].
  destruct (new_group_is_appended sample_uuidv4 ["zeal"; "yield"]%string
              "GRE" sample_creator sample_world E) as (_ & _ & _ & T & _).
  exact T.
Defined.

Lemma newBefore_cons_S old t ts i :
  newBefore old (t :: ts) (S i)
  = match find (fun w => String.eqb (text w) t) old with
    | Some _ => newBefore old ts i
    | None => S (newBefore old ts i)
    end.
Proof.
  unfold newBefore. cbn [firstn filter].
  now destruct (find (fun w => String.eqb (text w) t) old).
Qed.

Lemma mergeWords_nth u old title now : forall inp c i txt,
  nth_error inp i = Some txt ->
  nth_error (mergeWords u c old title now inp) i
  = Some match find (fun w => String.eqb (text w) txt) old with
         | Some existingWord => withGroupTitle title existingWord
         | None => newWordItem (u (c + newBefore old inp i)%nat) txt title now
         end.
Proof.
  induction inp as [|t ts IH]; intros c i txt H; [now destruct i|].
  destruct i as [|i].
  - cbn [nth_error] in H. injection H as ->. cbn [mergeWords].
    destruct (find (fun w => String.eqb (text w) txt) old); cbn [nth_error].
    + reflexivity.
    + unfold newBefore. cbn [firstn filter List.length]. now rewrite Nat.add_0_r.
  - cbn [nth_error] in H. rewrite newBefore_cons_S. cbn [mergeWords].
    destruct (find (fun w => String.eqb (text w) t) old); cbn [nth_error].
    + now apply IH.
    + rewrite (IH (S c) i txt H). now rewrite Nat.add_succ_r.
Qed.

Lemma mergeWords_text u old title now : forall inp c,
  map text (mergeWords u c old title now inp) = inp.
Proof.
  induction inp as [|t ts IH]; intros c; [reflexivity|].
  cbn [mergeWords].
  destruct (find (fun w => String.eqb (text w) t) old) as [e|] eqn:F;
    cbn [map]; rewrite IH; [|reflexivity].
  apply find_text_spec in F as [_ E]. cbn [withGroupTitle text]. now rewrite E.
Qed.

Lemma mergeWords_groupTitle u old title now : forall inp c,
  Forall (fun x => groupTitle x = Some title)
    (mergeWords u c old title now inp).
Proof.
  induction inp as [|t ts IH]; intros c; [constructor|].
  cbn [mergeWords].
  destruct (find (fun w => String.eqb (text w) t) old);
    constructor; auto.
Qed.

Lemma mergeWords_ids u old title now : forall inp c i,
  In i (map id (mergeWords u c old title now inp)) ->
  (exists e, In e old /\ In (text e) inp /\ id e = i) \/
  (exists k, (c <= k < c + List.length inp)%nat /\ i = u k).
Proof.
  induction inp as [|t ts IH]; intros c i H; [destruct H|].
  cbn [mergeWords] in H.
  destruct (find (fun w => String.eqb (text w) t) old) as [e|] eqn:F;
    cbn [map In] in H; destruct H as [H|H].
  - apply find_text_spec in F as [I E]. left. exists e.
    cbn [withGroupTitle id] in H. repeat split; auto. left. now symmetry.
  - apply IH in H as [(e' & I & T & E)|(k & K & E)].
    + left. exists e'. repeat split; auto. now right.
    + right. exists k. cbn [List.length]. split; [lia|exact E].
  - right. exists c. cbn [newWordItem id List.length] in *. split; [lia|auto].
  - apply IH in H as [(e' & I & T & E)|(k & K & E)].
    + left. exists e'. repeat split; auto. now right.
    + right. exists k. cbn [List.length]. split; [lia|exact E].
Qed.

Lemma NoDup_map_seq_S {B : Type} (u : nat -> B) c n :
  NoDup (map u (seq c (S n))) -> NoDup (map u (seq c n)).
Proof.
  rewrite seq_S, map_app. apply NoDup_app_remove_r.
Qed.

Lemma mergeWords_NoDup u old title now :
  NoDup (map id old) ->
  forall inp c,
  NoDup inp ->
  NoDup (map u (seq c (List.length inp))) ->
  (forall k, (c <= k < c + List.length inp)%nat -> ~ In (u k) (map id old)) ->
  NoDup (map id (mergeWords u c old title now inp)).
Proof.
  intros N. induction inp as [|t ts IH]; intros c D U F; [constructor|].
  inversion D as [|? ? Dt Dts]; subst.
  cbn [List.length seq map] in U. inversion U as [|? ? Uc Us]; subst.
  cbn [mergeWords].
  destruct (find (fun w => String.eqb (text w) t) old) as [e|] eqn:E;
    cbn [map]; constructor.
  - apply find_text_spec in E as [I T]. cbn [withGroupTitle id].
    intros H. apply mergeWords_ids in H as [(e' & I' & T' & E')|(k & K & E')].
    + assert (e' = e) by (eapply NoDup_map_inj; eauto). subst e'.
      apply Dt. now rewrite <- T.
    + apply (F k); [cbn [List.length]; lia|]. rewrite <- E'. now apply in_map.
  - apply IH; auto.
    + now apply NoDup_map_seq_S.
    + intros k K. apply F. cbn [List.length]. lia.
  - cbn [newWordItem id]. intros H.
    apply mergeWords_ids in H as [(e' & I' & T' & E')|(k & K & E')].
    + apply (F c); [cbn [List.length]; lia|]. rewrite <- E'. now apply in_map.
    + apply Uc. rewrite E'. apply in_map. apply in_seq. lia.
  - apply IH; auto. intros k K. apply F. cbn [List.length]. lia.
Qed.

Lemma handleSaveWords_edit u inputWords title ed w c s :
  editingGroupTitle ed = Some (String c s) ->
  handleSaveWords u inputWords title ed w
  = ({| app :=
          setView DASHBOARD
            (setWords
               (filter (fun x => negb (String.eqb (titleOf x) (String c s)))
                  (words (app ed))
                ++ mergeWords u 0
                     (filter (fun x => String.eqb (titleOf x) (String c s))
                        (words (app ed)))
                     title (now_of w) inputWords)
               (app ed));
        editingGroupTitle := None |}, tick w).
Proof.
  intros E. unfold handleSaveWords, bind, Date_now, ret. now rewrite E.
Qed.

(** Saving an edited group keeps the words of all other groups as they are
    and in their order, and replaces the edited group by one record per
    input word, in input order, all under the new title.  An input word
    whose text is already in the group keeps the first such record with its
    whole review history; any other input word gets a fresh record that is
    due at once.  Words of the group that are no longer listed are gone.
    The editor is closed and the dashboard is shown; the session is not
    touched. *)
Theorem edited_group_is_merged
    (uuidv4 : nat -> string) (inputWords : list string) (title : string)
    (ed : Editor) (w : World) (editing : string) :
  editingGroupTitle ed = Some editing ->
  editing <> EmptyString ->
  let ed' := fst (handleSaveWords uuidv4 inputWords title ed w) in
  let st := app ed in
  let st' := app ed' in
  let oldGroupWords :=
    filter (fun x => String.eqb (titleOf x) editing) (words st) in
  exists mergedWords,
    words st'
    = filter (fun x => negb (String.eqb (titleOf x) editing)) (words st)
      ++ mergedWords /\
    map text mergedWords = inputWords /\
    Forall (fun x => groupTitle x = Some title) mergedWords /\
    (forall i txt,
       nth_error inputWords i = Some txt ->
       nth_error mergedWords i
       = Some match find (fun x => String.eqb (text x) txt) oldGroupWords with
              | Some existingWord => withGroupTitle title existingWord
              | None =>
                  newWordItem (uuidv4 (newBefore oldGroupWords inputWords i))
                    txt title (now_of w)
              end) /\
    view st' = DASHBOARD /\
    editingGroupTitle ed' = None /\
    sessionWords st' = sessionWords st /\
    settings st' = settings st /\
    alerts st' = alerts st.
Proof.
  intros E NE. destruct editing as [|c s]; [congruence|]. cbv zeta.
  rewrite (handleSaveWords_edit _ _ _ _ _ _ _ E).
  cbn [fst app setView setWords words sessionWords view editingGroupTitle
       settings alerts].
  eexists. split; [reflexivity|].
  split; [apply mergeWords_text|].
  split; [apply mergeWords_groupTitle|].
  split; [|repeat split].
  intros i txt H. now rewrite (mergeWords_nth _ _ _ _ _ 0%nat i txt H).
Qed.

Lemma edited_group_is_merged_witness :
  editingGroupTitle sample_editor = Some "SAT"%string /\
  "SAT"%string <> EmptyString /\
  view (app (fst (handleSaveWords sample_uuidv4 ["abandon"; "zeal"]%string
                    "SAT 2" sample_editor sample_world))) = DASHBOARD.
Proof.
  assert (editingGroupTitle sample_editor = Some "SAT"%string) as E
    by reflexivity.
  assert ("SAT"%string <> EmptyString) as NE by discriminate.
  split; [exact E|]. split; [exact NE|].
  destruct (edited_group_is_merged sample_uuidv4 ["abandon"; "zeal"]%string
              "SAT 2" sample_editor sample_world "SAT" E NE)
    as (merged & _ & _ & _ & _ & V & _).
  exact V.
Defined.

(** Saving an edited group keeps the ids of the collection pairwise
    distinct, when the input lists no word twice and the ids handed out by
    [uuidv4] are new and pairwise distinct. *)
Theorem edited_group_keeps_ids_distinct
    (uuidv4 : nat -> string) (inputWords : list string) (title : string)
    (ed : Editor) (w : World) (editing : string) :
  editingGroupTitle ed = Some editing ->
  editing <> EmptyString ->
  NoDup (map id (words (app ed))) ->
  NoDup inputWords ->
  NoDup (map uuidv4 (seq 0 (List.length inputWords))) ->
  (forall k, (k < List.length inputWords)%nat ->
             ~ In (uuidv4 k) (map id (words (app ed)))) ->
  NoDup (map id (words (app (fst (handleSaveWords uuidv4 inputWords title
                                    ed w))))).
Proof.
  intros E NE N D U F. destruct editing as [|c s]; [congruence|].
  rewrite (handleSaveWords_edit _ _ _ _ _ _ _ E).
  cbn [fst app setView setWords words].
  set (ws := words (app ed)) in *.
  set (p := fun x => String.eqb (titleOf x) (String c s)).
  assert (Fold : forall k, (k < List.length inputWords)%nat ->
                           ~ In (uuidv4 k) (map id (filter p ws))).
  { intros k K I. apply (F k K). apply in_map_iff in I as (x & <- & Hx).
    apply filter_In in Hx as [Hx _]. now apply in_map. }
  rewrite map_app. apply NoDup_app.
  - now apply NoDup_map_filter.
  - apply mergeWords_NoDup; auto.
    + now apply NoDup_map_filter.
    + intros k K. apply Fold. lia.
  - intros a Ia Ha.
    apply in_map_iff in Ia as (x & <- & Hx).
    apply filter_In in Hx as [Hx Px].
    apply mergeWords_ids in Ha as [(e & Ie & _ & Ee)|(k & K & Ek)].
    + apply filter_In in Ie as [Ie Pe].
      assert (e = x) by (eapply NoDup_map_inj; eauto). subst e.
      unfold p in Pe. rewrite Pe in Px. discriminate.
    + apply (F k); [lia|]. rewrite <- Ek. now apply in_map.
Qed.

Lemma edited_group_keeps_ids_distinct_witness :
  NoDup ["abandon"; "zeal"]%string /\
  NoDup
    (map id
       (words
          (app (fst (handleSaveWords sample_uuidv4 ["abandon"; "zeal"]%string
                       "SAT 2" sample_editor sample_world))))).
Proof.
  assert (editingGroupTitle sample_editor = Some "SAT"%string) as E
    by reflexivity.
  assert ("SAT"%string <> EmptyString) as NE by discriminate.
  assert (NoDup (map id (words (app sample_editor)))) as N
    by (repeat (constructor; [simpl; intuition discriminate|]); constructor).
  assert (NoDup ["abandon"; "zeal"]%string) as D
    by (repeat (constructor; [simpl; intuition discriminate|]); constructor).
  assert (NoDup (map sample_uuidv4
                   (seq 0 (List.length ["abandon"; "zeal"]%string)))) as U
    by (repeat (constructor; [simpl; intuition discriminate|]); constructor).
  assert (forall k, (k < List.length ["abandon"; "zeal"]%string)%nat ->
                    ~ In (sample_uuidv4 k) (map id (words (app sample_editor))))
    as F.
  { intros k K. destruct k as [|[|k]]; [| |simpl in K; lia];
      simpl; intuition discriminate. }
  split; [exact D|].
  exact (edited_group_keeps_ids_distinct sample_uuidv4
           ["abandon"; "zeal"]%string "SAT 2" sample_editor sample_world
           "SAT" E NE N D U F).
Defined.

(** An input word that is listed twice and was already in the edited group
    puts the same record, under the same id, into the collection twice. *)
Theorem edited_group_repeats_listed_twice
    (uuidv4 : nat -> string) (inputWords : list string) (title : string)
    (ed : Editor) (w : World) (editing : string) (i j : nat) (txt : string)
    (x : WordItem) :
  editingGroupTitle ed = Some editing ->
  editing <> EmptyString ->
  i <> j ->
  nth_error inputWords i = Some txt ->
  nth_error inputWords j = Some txt ->
  In x (words (app ed)) -> titleOf x = editing -> text x = txt ->
  ~ NoDup (map id (words (app (fst (handleSaveWords uuidv4 inputWords title
                                      ed w))))).
Proof.
  intros E NE IJ Hi Hj Ix Tx Xx N. destruct editing as [|c s]; [congruence|].
  rewrite (handleSaveWords_edit _ _ _ _ _ _ _ E) in N.
  cbn [fst app setView setWords words] in N.
  rewrite map_app in N. apply NoDup_app_remove_l in N.
  set (old := filter _ _) in N.
  destruct (find (fun y => String.eqb (text y) txt) old) as [e|] eqn:Fe.
  - pose proof (mergeWords_nth uuidv4 old title (now_of w) _ 0%nat i txt Hi)
      as Mi.
    pose proof (mergeWords_nth uuidv4 old title (now_of w) _ 0%nat j txt Hj)
      as Mj.
    rewrite Fe in Mi, Mj.
    apply (map_nth_error id) in Mi, Mj.
    rewrite NoDup_nth_error in N.
    apply IJ. apply N; [|congruence].
    apply nth_error_Some. congruence.
  - assert (In x old) as Io
      by (apply filter_In; split; [exact Ix|now apply String.eqb_eq]).
    pose proof (find_none _ _ Fe x Io) as Fx. cbv beta in Fx.
    apply String.eqb_neq in Fx. contradiction.
Qed.

Lemma edited_group_repeats_listed_twice_witness :
  nth_error ["abandon"; "abandon"]%string 0 = Some "abandon"%string /\
  nth_error ["abandon"; "abandon"]%string 1 = Some "abandon"%string /\
  ~ NoDup
      (map id
         (words
            (app (fst (handleSaveWords sample_uuidv4
                         ["abandon"; "abandon"]%string "SAT" sample_editor
                         sample_world))))).
Proof.
  assert (editingGroupTitle sample_editor = Some "SAT"%string) as E
    by reflexivity.
  assert ("SAT"%string <> EmptyString) as NE by discriminate.
  assert (0%nat <> 1%nat) as IJ by discriminate.
  assert (nth_error ["abandon"; "abandon"]%string 0 = Some "abandon"%string)
    as Hi by reflexivity.
  assert (nth_error ["abandon"; "abandon"]%string 1 = Some "abandon"%string)
    as Hj by reflexivity.
  assert (In sample_word (words (app sample_editor))) as Ix
    by (simpl; auto).
  assert (titleOf sample_word = "SAT"%string) as Tx by reflexivity.
  assert (text sample_word = "abandon"%string) as Xx by reflexivity.
  split; [exact Hi|]. split; [exact Hj|].
  exact (edited_group_repeats_listed_twice sample_uuidv4
           ["abandon"; "abandon"]%string "SAT" sample_editor sample_world
           "SAT" 0 1 "abandon" sample_word E NE IJ Hi Hj Ix Tx Xx).
Defined.

Lemma filter_other_id (target : WordItem) l :
  ~ In (id target) (map id l) ->
  filter (fun w => negb (String.eqb (id w) (id target))) l = l.
Proof.
  induction l as [|x xs IH]; intros H; [reflexivity|].
  cbn [filter map In] in *.
  destruct (String.eqb_spec (id x) (id target)) as [E|_].
  - exfalso. apply H. now left.
  - cbn [negb]. f_equal. apply IH. intros I. apply H. now right.
Qed.

(** With pairwise distinct ids, confirming the deletion of a word of the
    collection takes out exactly that record: the words before it and after
    it stay, in their order.  The session and the view are not touched, and
    a cancelled dialog changes nothing. *)
Theorem delete_word_removes_one (target : WordItem) (st : App) :
  NoDup (map id (words st)) ->
  In target (words st) ->
  let st' := handleDeleteWord true target st in
  (exists before after,
     words st = before ++ target :: after /\
     words st' = before ++ after) /\
  sessionWords st' = sessionWords st /\
  view st' = view st /\
  handleDeleteWord false target st = st.
Proof.
  intros N I. cbv zeta. split; [|repeat split].
  apply in_split in I as (before & after & E).
  exists before, after. split; [exact E|].
  unfold handleDeleteWord. cbn [setWords words]. rewrite E in *.
  rewrite map_app in N. cbn [map] in N.
  pose proof (NoDup_remove_2 _ _ _ N) as Out.
  rewrite filter_app. cbn [filter]. rewrite String.eqb_refl. cbn [negb].
  rewrite !filter_other_id; [reflexivity| |];
    intros H; apply Out; apply in_or_app; auto.
Qed.

Lemma delete_word_removes_one_witness :
  NoDup (map id (words sample_app)) /\
  In sample_word (words sample_app) /\
  exists before after,
    words sample_app = before ++ sample_word :: after /\
    words (handleDeleteWord true sample_word sample_app) = before ++ after.
Proof.
  assert (NoDup (map id (words sample_app))) as N
    by (repeat (constructor; [simpl; intuition discriminate|]); constructor).
  assert (In sample_word (words sample_app)) as I by (simpl; auto).
  split; [exact N|]. split; [exact I|].
  destruct (delete_word_removes_one sample_word sample_app N I) as [S _].
  exact S.
Defined.

Lemma filter_filter_other (title other : string) l :
  other <> title ->
  filter (fun w => String.eqb (titleOf w) other)
    (filter (fun w => negb (String.eqb (titleOf w) title)) l)
  = filter (fun w => String.eqb (titleOf w) other) l.
Proof.
  intros NE. induction l as [|x xs IH]; [reflexivity|].
  cbn [filter].
  destruct (String.eqb_spec (titleOf x) title) as [E|D]; cbn [negb filter].
  - destruct (String.eqb_spec (titleOf x) other) as [E'|_]; [congruence|].
    exact IH.
  - destruct (String.eqb (titleOf x) other); [f_equal|]; exact IH.
Qed.

(** Confirming the deletion of a group leaves no word of that group, where a
    word without a title or with an empty one belongs to the default group.
    Every other group keeps its words, in their order, and distinct ids stay
    distinct.  A cancelled dialog changes nothing. *)
Theorem delete_group_keeps_other_groups (title : string) (st : App) :
  let st' := handleDeleteGroup true title st in
  Forall (fun w => titleOf w <> title) (words st') /\
  (forall other,
     other <> title ->
     filter (fun w => String.eqb (titleOf w) other) (words st')
     = filter (fun w => String.eqb (titleOf w) other) (words st)) /\
  (NoDup (map id (words st)) -> NoDup (map id (words st'))) /\
  sessionWords st' = sessionWords st /\
  view st' = view st /\
  handleDeleteGroup false title st = st.
Proof.
  cbv zeta. unfold handleDeleteGroup. cbn [setWords words sessionWords view].
  split; [|split; [|split; [|repeat split]]].
  - apply Forall_forall. intros x Hx. apply filter_In in Hx as [_ Hx].
    destruct (String.eqb_spec (titleOf x) title); [discriminate|assumption].
  - intros other NE. now apply filter_filter_other.
  - apply NoDup_map_filter.
Qed.

(** Ending a session early hands the words played so far, the current one
    included, to the correction pass; with an empty queue the session words
    stay as they were.  The collection is not touched. *)
Theorem finish_early_keeps_played_words
    (playQueue : list WordItem) (currentIndex : nat) (st : App) :
  let st' := handleFinishEarly playQueue currentIndex st in
  sessionWords st'
  = match playQueue with
    | [] => sessionWords st
    | _ => firstn (S currentIndex) playQueue
    end /\
  view st' = CORRECTION /\
  words st' = words st.
Proof.
  cbv zeta. unfold handleFinishEarly, handleDictationComplete, slice0.
  replace (Z.of_nat currentIndex + 1 <? 0) with false
    by (symmetry; apply Z.ltb_ge; lia).
  replace (Z.to_nat (Z.min (Z.of_nat currentIndex + 1)
                       (Z.of_nat (List.length playQueue))))
    with (Nat.min (S currentIndex) (List.length playQueue)) by lia.
  destruct playQueue as [|q qs]; [repeat split|].
  rewrite <- firstn_firstn, firstn_all. cbn [firstn].
  repeat split.
Qed.

(** ** The correction view *)

Lemma Object_get_set k k' v o :
  Object_get k (Object_set k' v o)
  = if String.eqb k' k then Some v else Object_get k o.
Proof.
  induction o as [|[k0 v0] o IH]; cbn [Object_set Object_get].
  - reflexivity.
  - destruct (String.eqb_spec k0 k') as [E|D]; cbn [Object_get].
    + subst k0. now destruct (String.eqb k' k).
    + rewrite IH. destruct (String.eqb_spec k0 k) as [E|D']; [|reflexivity].
      subst k0. destruct (String.eqb_spec k' k); congruence.
Qed.

Lemma Object_set_keys k v o i :
  In i (map fst (Object_set k v o)) <-> i = k \/ In i (map fst o).
Proof.
  induction o as [|[k0 v0] o IH]; cbn [Object_set map fst In].
  - intuition.
  - destruct (String.eqb_spec k0 k) as [E|D]; cbn [map fst In].
    + subst. intuition.
    + rewrite IH. intuition.
Qed.

Lemma Object_set_NoDup k v o :
  NoDup (map fst o) -> NoDup (map fst (Object_set k v o)).
Proof.
  induction o as [|[k0 v0] o IH]; intros N; cbn [Object_set map fst].
  - constructor; [intros []|constructor].
  - cbn [map fst] in N. inversion N as [|? ? N0 No]; subst.
    destruct (String.eqb_spec k0 k) as [E|D]; cbn [map fst].
    + now constructor.
    + constructor; [|now apply IH].
      rewrite Object_set_keys. intros [E|I]; [congruence|contradiction].
Qed.

Lemma Object_get_keys k o :
  Object_get k o <> None <-> In k (map fst o).
Proof.
  induction o as [|[k0 v0] o IH]; cbn [Object_get map fst In].
  - intuition.
  - destruct (String.eqb_spec k0 k) as [E|D].
    + split; [now left|discriminate].
    + rewrite IH. intuition.
Qed.

Lemma Object_get_In k v o :
  NoDup (map fst o) -> (Object_get k o = Some v <-> In (k, v) o).
Proof.
  induction o as [|[k0 v0] o IH]; intros N; cbn [Object_get In].
  - split; [discriminate|intros []].
  - cbn [map fst] in N. inversion N as [|? ? N0 No]; subst.
    destruct (String.eqb_spec k0 k) as [E|D].
    + subst k0. split.
      * intros [= ->]. now left.
      * intros [[= ->]|I]; [reflexivity|].
        exfalso. apply N0. apply in_map_iff. now exists (k, v).
    + rewrite (IH No). split; [now right|].
      intros [[= ? ?]|I]; [congruence|exact I].
Qed.

Lemma fromEntries_fold_keys entries : forall o i,
  In i (map fst (fold_left (fun o e => Object_set (fst e) (snd e) o) entries o))
  <-> In i (map fst entries) \/ In i (map fst o).
Proof.
  induction entries as [|[k v] es IH]; intros o i; cbn [fold_left map fst In].
  - intuition.
  - rewrite IH, Object_set_keys. intuition.
Qed.

Lemma fromEntries_fold_NoDup entries : forall o,
  NoDup (map fst o) ->
  NoDup (map fst (fold_left (fun o e => Object_set (fst e) (snd e) o)
                    entries o)).
Proof.
  induction entries as [|[k v] es IH]; intros o N; cbn [fold_left]; auto.
  apply IH. now apply Object_set_NoDup.
Qed.

Lemma fromEntries_const_get (c : bool) (ws : list WordItem) k : forall o,
  (forall v, Object_get k o = Some v -> v = c) ->
  Object_get k
    (fold_left (fun o e => Object_set (fst e) (snd e) o)
       (map (fun w => (id w, c)) ws) o)
  = if existsb (fun w => String.eqb (id w) k) ws then Some c
    else Object_get k o.
Proof.
  induction ws as [|x xs IH]; intros o H; cbn [map fold_left existsb fst snd].
  - reflexivity.
  - rewrite IH.
    + rewrite Object_get_set.
      destruct (String.eqb (id x) k); cbn [orb]; [|reflexivity].
      now destruct (existsb _ xs).
    + intros v. rewrite Object_get_set.
      destruct (String.eqb (id x) k); [congruence|apply H].
Qed.

Lemma setAll_get ws c k :
  Object_get k (setAll ws c)
  = if existsb (fun w => String.eqb (id w) k) ws then Some c else None.
Proof.
  unfold setAll, Object_fromEntries. rewrite fromEntries_const_get.
  - reflexivity.
  - discriminate.
Qed.

Lemma setAll_NoDup ws c : NoDup (map fst (setAll ws c)).
Proof. apply fromEntries_fold_NoDup. constructor. Qed.

Lemma marked_snoc ws marks m :
  marked ws (marks ++ [m]) = mark ws (marked ws marks) m.
Proof. unfold marked. now rewrite fold_left_app. Qed.

Lemma marked_NoDup ws marks : NoDup (map fst (marked ws marks)).
Proof.
  induction marks as [|m ms IH] using rev_ind.
  - apply setAll_NoDup.
  - rewrite marked_snoc. destruct m as [i s|c]; cbn [mark].
    + now apply Object_set_NoDup.
    + apply setAll_NoDup.
Qed.

(** The results the view holds when the user finishes.  Every word of the
    session starts as correct and no other id has a result; a mark on one
    word replaces the result of that word only; marking all sets every word
    of the session to the same result and forgets what was marked before. *)
Theorem last_mark_wins (ws : list WordItem) (marks : list Mark) (k : string) :
  let inSession := existsb (fun w => String.eqb (id w) k) ws in
  Object_get k (marked ws []) = (if inSession then Some true else None) /\
  (forall status,
     Object_get k (marked ws (marks ++ [MarkOne k status])) = Some status) /\
  (forall i status,
     i <> k ->
     Object_get k (marked ws (marks ++ [MarkOne i status]))
     = Object_get k (marked ws marks)) /\
  (forall correct,
     Object_get k (marked ws (marks ++ [MarkAll correct]))
     = if inSession then Some correct else None).
Proof.
  cbv zeta. split; [apply setAll_get|].
  split; [|split].
  - intros status. rewrite marked_snoc. cbn [mark]. unfold setStatus.
    now rewrite Object_get_set, String.eqb_refl.
  - intros i status NE. rewrite marked_snoc. cbn [mark]. unfold setStatus.
    rewrite Object_get_set.
    destruct (String.eqb_spec i k); [congruence|reflexivity].
  - intros correct. rewrite marked_snoc. cbn [mark]. apply setAll_get.
Qed.

Lemma find_finalResults k : forall entries,
  find (fun r => String.eqb (result_id r) k) (finalResults entries)
  = match Object_get k entries with
    | Some c => Some {| result_id := k; result_correct := c |}
    | None => None
    end.
Proof.
  induction entries as [|[k0 v0] es IH];
    cbn [finalResults map find Object_get result_id fst snd]; [reflexivity|].
  destruct (String.eqb_spec k0 k) as [E|D]; [now subst|exact IH].
Qed.

Lemma Object_get_Permutation k o o' :
  NoDup (map fst o) -> Permutation o' o -> Object_get k o' = Object_get k o.
Proof.
  intros N P.
  assert (NoDup (map fst o')) as N'.
  { eapply Permutation_NoDup; [|exact N].
    apply Permutation_map. now apply Permutation_sym. }
  destruct (Object_get k o) as [v|] eqn:E.
  - apply (Object_get_In k v o' N'). apply (Object_get_In k v o N) in E.
    eapply Permutation_in; [apply Permutation_sym|]; eassumption.
  - destruct (Object_get k o') as [v|] eqn:E'; [|reflexivity].
    apply (Object_get_In k v o' N') in E'.
    apply (Permutation_in _ P) in E'.
    apply (Object_get_In k v o N) in E'. congruence.
Qed.

Lemma handleFinish_nth st marks entries w i x :
  Permutation entries (marked (sessionWords st) marks) ->
  nth_error (words st) i = Some x ->
  nth_error (words (fst (handleFinish entries st w))) i
  = Some match Object_get (id x) (marked (sessionWords st) marks) with
         | Some correct =>
             fst (calculateNextReview x correct
                    (Nat.iter
                       (correctedBefore (finalResults entries) (words st) i)
                       tick w))
         | None => x
         end.
Proof.
  intros P H. unfold handleFinish, handleCorrectionFinish, bind, ret.
  pose proof (mapM_applyResult_nth (finalResults entries) (words st) w i x H)
    as N.
  destruct (mapM (applyResult (finalResults entries)) (words st) w) as [l w'].
  cbn [fst] in *. cbn [setView setWords words].
  rewrite N. unfold applyResult, findResult. rewrite find_finalResults.
  rewrite (Object_get_Permutation (id x) _ _ (marked_NoDup _ _) P).
  now destruct (Object_get (id x) (marked (sessionWords st) marks)).
Qed.

Lemma handleFinish_view entries st w :
  view (fst (handleFinish entries st w)) = DASHBOARD.
Proof.
  unfold handleFinish, handleCorrectionFinish, bind, ret.
  now destruct (mapM (applyResult (finalResults entries)) (words st) w).
Qed.

(** Finishing the correction view reschedules every word of the collection
    by the result the view holds for its id, whatever the order in which the
    entries of the results are listed; a word without a result is kept as it
    is. *)
Theorem finish_applies_the_results
    (st : App) (marks : list Mark) (entries : list (string * bool))
    (w : World) (i : nat) (x : WordItem) :
  Permutation entries (marked (sessionWords st) marks) ->
  nth_error (words st) i = Some x ->
  let st' := fst (handleFinish entries st w) in
  let wi :=
    Nat.iter (correctedBefore (finalResults entries) (words st) i) tick w in
  nth_error (words st') i
  = Some match Object_get (id x) (marked (sessionWords st) marks) with
         | Some correct => fst (calculateNextReview x correct wi)
         | None => x
         end /\
  view st' = DASHBOARD.
Proof.
  intros P H. cbv zeta. split.
  - now apply handleFinish_nth.
  - apply handleFinish_view.
Qed.

Lemma finish_applies_the_results_witness :
  nth_error (words sample_session) 1 = Some sample_word /\
  nth_error
    (words (fst (handleFinish
                   (marked (sessionWords sample_session)
                      [MarkOne "word-1" false])
                   sample_session sample_world))) 1
  = Some (fst (calculateNextReview sample_word false sample_world)).
Proof.
  assert (Permutation
            (marked (sessionWords sample_session) [MarkOne "word-1" false])
            (marked (sessionWords sample_session) [MarkOne "word-1" false]))
    as P by apply Permutation_refl.
  assert (nth_error (words sample_session) 1 = Some sample_word) as H
    by reflexivity.
  split; [exact H|].
  destruct (finish_applies_the_results sample_session
              [MarkOne "word-1" false] _ sample_world 1 sample_word P H)
    as [N _].
  exact N.
Defined.

Lemma marked_keys ws marks k :
  Forall (fun m => match m with
                   | MarkOne i _ => In i (map id ws)
                   | MarkAll _ => True
                   end) marks ->
  In k (map fst (marked ws marks)) -> In k (map id ws).
Proof.
  induction marks as [|m ms IH] using rev_ind; intros F I.
  - unfold marked in I. cbn [fold_left] in I.
    unfold initialResults, Object_fromEntries in I.
    apply fromEntries_fold_keys in I as [I|[]].
    now rewrite map_map in I.
  - apply Forall_app in F as [Fms Fm]. inversion Fm as [|? ? Hm _]; subst.
    rewrite marked_snoc in I. destruct m as [i s|c]; cbn [mark] in I.
    + apply Object_set_keys in I as [->|I]; auto.
    + apply fromEntries_fold_keys in I as [I|[]].
      now rewrite map_map in I.
Qed.

(** The correction view offers its marks for the words of the session only;
    a word of the collection that is not in the session, such as one not
    played before an early end, comes out of the correction pass
    unchanged. *)
Theorem correction_spares_words_outside_session
    (st : App) (marks : list Mark) (entries : list (string * bool))
    (w : World) (i : nat) (x : WordItem) :
  Forall (fun m => match m with
                   | MarkOne k _ => In k (map id (sessionWords st))
                   | MarkAll _ => True
                   end) marks ->
  Permutation entries (marked (sessionWords st) marks) ->
  nth_error (words st) i = Some x ->
  ~ In (id x) (map id (sessionWords st)) ->
  nth_error (words (fst (handleFinish entries st w))) i = Some x.
Proof.
  intros F P H Out. rewrite (handleFinish_nth st marks entries w i x P H).
  destruct (Object_get (id x) (marked (sessionWords st) marks)) eqn:E;
    [|reflexivity].
  exfalso. apply Out. apply (marked_keys _ marks); [exact F|].
  apply Object_get_keys. congruence.
Qed.

Lemma correction_spares_words_outside_session_witness :
  nth_error (words sample_session) 0 = Some sample_A /\
  ~ In (id sample_A) (map id (sessionWords sample_session)) /\
  nth_error
    (words (fst (handleFinish
                   (marked (sessionWords sample_session)
                      [MarkOne "word-1" false])
                   sample_session sample_world))) 0
  = Some sample_A.
Proof.
  assert (Forall (fun m => match m with
                           | MarkOne k _ =>
                               In k (map id (sessionWords sample_session))
                           | MarkAll _ => True
                           end) [MarkOne "word-1" false]) as F
    by (repeat constructor).
  assert (Permutation
            (marked (sessionWords sample_session) [MarkOne "word-1" false])
            (marked (sessionWords sample_session) [MarkOne "word-1" false]))
    as P by apply Permutation_refl.
  assert (nth_error (words sample_session) 0 = Some sample_A) as H
    by reflexivity.
  assert (~ In (id sample_A) (map id (sessionWords sample_session))) as Out
    by (simpl; intuition discriminate).
  split; [exact H|]. split; [exact Out|].
  exact (correction_spares_words_outside_session sample_session
           [MarkOne "word-1" false] _ sample_world 0 sample_A F P H Out).
Defined.

Lemma now_of_iter k w : now_of (Nat.iter k tick w) = clock w (reads w + k)%nat.
Proof.
  unfold now_of.
  assert (clock (Nat.iter k tick w) = clock w /\
          reads (Nat.iter k tick w) = (reads w + k)%nat) as [C R].
  { induction k as [|k [C R]]; simpl; [split; [reflexivity|lia]|].
    split; [exact C|lia]. }
  now rewrite C, R.
Qed.

Lemma calculateNextReview_id x c w :
  id (fst (calculateNextReview x c w)) = id x.
Proof.
  pose proof (applyResult_identity
                [{| result_id := id x; result_correct := c |}] x w) as H.
  unfold applyResult, findResult in H. cbn [find result_id] in H.
  rewrite String.eqb_refl in H. cbn [result_correct] in H.
  unfold identity in H. congruence.
Qed.

(** A word of the session the user leaves unmarked is taken as written
    correctly: when the correction view is finished without any mark, every
    word of the collection that is in the session is rescheduled at some
    reading [now'] of the clock, counts as mastered, and is not due at any
    time earlier than two weeks after that reading.  The last part is for a
    next review time in the range where the sum the source computes is
    exact. *)
Theorem unmarked_session_words_rest
    (st : App) (entries : list (string * bool)) (w : World)
    (i : nat) (x : WordItem) :
  Permutation entries (marked (sessionWords st) []) ->
  nth_error (words st) i = Some x ->
  In (id x) (map id (sessionWords st)) ->
  interval x < 2 ^ 53 ->
  exists x' now',
    nth_error (words (fst (handleFinish entries st w))) i = Some x' /\
    lastReviewed x' = Some now' /\
    id x' = id x /\ isLearned x' = true /\ 14 <= interval x' /\
    (forall t,
       0 <= now' -> now' + interval x' * ONE_DAY < 2 ^ 53 ->
       t < now' + 14 * ONE_DAY -> isDue t x' = false).
Proof.
  intros P H I Hi. rewrite (handleFinish_nth st [] entries w i x P H).
  assert (Object_get (id x) (marked (sessionWords st) []) = Some true) as E.
  { unfold marked. cbn [fold_left]. unfold initialResults.
    change (Object_fromEntries (map (fun w0 => (id w0, true)) (sessionWords st)))
      with (setAll (sessionWords st) true).
    rewrite setAll_get.
    replace (existsb (fun w0 => String.eqb (id w0) (id x)) (sessionWords st))
      with true; [reflexivity|].
    symmetry. apply existsb_exists. apply in_map_iff in I as (y & E & Hy).
    exists y. split; [exact Hy|]. now apply String.eqb_eq. }
  rewrite E. set (wi := Nat.iter _ tick w).
  exists (fst (calculateNextReview x true wi)), (now_of wi).
  split; [reflexivity|]. split; [reflexivity|].
  split; [apply calculateNextReview_id|].
  assert (now_of wi - 1 < now_of wi + 14 * ONE_DAY) as T
    by (unfold ONE_DAY; lia).
  destruct (calculateNextReview_rests x wi _ Hi T) as (_ & L & I14 & _).
  split; [exact L|]. split; [exact I14|].
  intros t _ _ Ht. now destruct (calculateNextReview_rests x wi t Hi Ht).
Qed.

Lemma unmarked_session_words_rest_witness :
  Permutation (marked (sessionWords sample_session) [])
    (marked (sessionWords sample_session) []) /\
  exists x' now',
    nth_error
      (words (fst (handleFinish (marked (sessionWords sample_session) [])
                     sample_session sample_world))) 1 = Some x' /\
    lastReviewed x' = Some now' /\
    id x' = id sample_word /\ isLearned x' = true /\ 14 <= interval x' /\
    (forall t,
       0 <= now' -> now' + interval x' * ONE_DAY < 2 ^ 53 ->
       t < now' + 14 * ONE_DAY -> isDue t x' = false).
Proof.
  assert (Permutation (marked (sessionWords sample_session) [])
            (marked (sessionWords sample_session) [])) as P
    by apply Permutation_refl.
  assert (nth_error (words sample_session) 1 = Some sample_word) as H
    by reflexivity.
  assert (In (id sample_word) (map id (sessionWords sample_session))) as I
    by (simpl; auto).
  assert (interval sample_word < 2 ^ 53) as Hi by reflexivity.
  split; [exact P|].
  exact (unmarked_session_words_rest sample_session _ sample_world 1
           sample_word P H I Hi).
Defined.

(** ** The reminder *)

Lemma checkReminder_cases permission hidden ws r w :
  checkReminder permission hidden ws r w = (r, w) /\
  (permission <> granted \/ hidden = false) \/
  checkReminder permission hidden ws r w = (r, tick w) /\
  permission = granted /\ hidden = true \/
  permission = granted /\ hidden = true /\
  ONE_HOUR <= now_of w - lastNotificationTime r /\
  (0 < List.length (filter (isDue (now_of w)) ws))%nat /\
  checkReminder permission hidden ws r w
  = ({| lastNotificationTime := now_of w;
        notifications :=
          (now_of w, List.length (filter (isDue (now_of w)) ws))
          :: notifications r |}, tick w).
Proof.
  unfold checkReminder.
  destruct permission; [left; split; [reflexivity|left; discriminate]..|].
  destruct hidden; cbn [negb]; [|left; split; [reflexivity|now right]].
  right. unfold bind, Date_now, ret.
  destruct (Z.ltb_spec (now_of w - lastNotificationTime r) ONE_HOUR) as [L|G];
    [left; auto|].
  destruct (Nat.ltb_spec 0 (List.length (filter (isDue (now_of w)) ws)))
    as [P|Z]; [right|left; auto].
  repeat split; auto.
Qed.

Lemma checkReminders_throttled events : forall r w,
  throttled r -> throttled (fst (checkReminders events r w)).
Proof.
  induction events as [|[[p h] ws] es IH]; intros r w T; [exact T|].
  cbn [checkReminders]. unfold bind.
  destruct (checkReminder_cases p h ws r w)
    as [[E _]|[[E _]|(_ & _ & G & _ & E)]]; rewrite E; apply IH; auto.
  destruct T as [S L]. split; [|reflexivity].
  cbn [notifications lastNotificationTime] in *.
  destruct (notifications r) as [|[t n] older]; [exact I|].
  cbn [spaced]. subst t. split; [exact G|exact S].
Qed.

Lemma reminded_app done events entry :
  reminded done entry -> reminded (done ++ events) entry.
Proof.
  intros (ws & I & H). exists ws. split; [|exact H].
  apply in_or_app. now left.
Qed.

Lemma checkReminders_reminded events : forall r w done,
  Forall (reminded done) (notifications r) ->
  Forall (reminded (done ++ events))
    (notifications (fst (checkReminders events r w))).
Proof.
  induction events as [|[[p h] ws] es IH]; intros r w done F.
  - cbn [checkReminders]. unfold ret. cbn [fst]. now rewrite app_nil_r.
  - cbn [checkReminders]. unfold bind.
    replace (done ++ (p, h, ws) :: es) with ((done ++ [(p, h, ws)]) ++ es)
      by now rewrite <- app_assoc.
    assert (Forall (reminded (done ++ [(p, h, ws)])) (notifications r)) as F'
      by (eapply Forall_impl; [|exact F]; intros; now apply reminded_app).
    destruct (checkReminder_cases p h ws r w)
      as [[E _]|[[E _]|(-> & -> & _ & P & E)]]; rewrite E; apply IH; auto.
    cbn [notifications]. constructor; [|exact F'].
    exists ws. cbn [fst snd]. repeat split; auto.
    apply in_or_app. right. now left.
Qed.

(** Whatever the browser reports at each check and whatever the clock
    shows, two notifications in a row are at least an hour apart, and every
    notification reports the number of words due at its time, at least one,
    of a check that ran with permission while the page was hidden. *)
Theorem reminders_an_hour_apart
    (events : list (NotificationPermission * bool * list WordItem))
    (w : World) :
  let r := fst (checkReminders events initialReminder w) in
  spaced ONE_HOUR (notifications r) /\
  Forall (reminded events) (notifications r).
Proof.
  cbv zeta. split.
  - apply checkReminders_throttled. split; exact I.
  - apply (checkReminders_reminded events initialReminder w []).
    constructor.
Qed.

(** While the page is visible or permission is missing at every check, no
    notification is sent and the clock is not read. *)
Theorem no_reminder_while_visible
    (events : list (NotificationPermission * bool * list WordItem))
    (r : Reminder) (w : World) :
  Forall (fun e => fst (fst e) <> granted \/ snd (fst e) = false) events ->
  checkReminders events r w = (r, w).
Proof.
  revert r w. induction events as [|[[p h] ws] es IH]; intros r w F;
    [reflexivity|].
  inversion F as [|? ? H Fes]; subst. cbn [fst snd] in H.
  cbn [checkReminders]. unfold bind.
  destruct (checkReminder_cases p h ws r w)
    as [[E _]|[[_ [-> ->]]|(-> & -> & _)]].
  - rewrite E. now apply IH.
  - destruct H; congruence.
  - destruct H; congruence.
Qed.

Lemma no_reminder_while_visible_witness :
  Forall (fun e => fst (fst e) <> granted \/ snd (fst e) = false)
    [(granted, false, words sample_app); (denied, true, words sample_app)] /\
  checkReminders
    [(granted, false, words sample_app); (denied, true, words sample_app)]
    initialReminder sample_world
  = (initialReminder, sample_world).
Proof.
  assert (Forall (fun e => fst (fst e) <> granted \/ snd (fst e) = false)
            [(granted, false, words sample_app);
             (denied, true, words sample_app)]) as F.
  { constructor; [right; reflexivity|].
    constructor; [left; discriminate|constructor]. }
  split; [exact F|].
  exact (no_reminder_while_visible _ initialReminder sample_world F).
Defined.

(** ** Clamping *)

Lemma Math_max_cases x y :
  valid_binary Float64.prec Float64.emax x = true ->
  valid_binary Float64.prec Float64.emax y = true ->
  Float64.is_nan x = false -> Float64.is_nan y = false ->
  (Float64.Math_max x y = x \/ Float64.Math_max x y = y) /\
  Float64.le x (Float64.Math_max x y) /\
  Float64.le y (Float64.Math_max x y).
Proof.
  intros Vx Vy Nx Ny. unfold Float64.Math_max.
  rewrite (compare_valid x y Vx Vy Nx Ny).
  pose proof (compare_antisym x y) as A. unfold Float64.le.
  destruct (Float64.compare x y) eqn:C.
  - assert ((match x with S754_zero true => y | _ => x end) = x \/
            (match x with S754_zero true => y | _ => x end) = y) as [E|E]
      by (destruct x as [[]|[]| |]; auto);
      rewrite E; rewrite ?compare_refl, ?C, ?A; cbn [CompOpp];
      (split; [auto|split; discriminate]).
  - rewrite compare_refl, C. split; [auto|split; discriminate].
  - rewrite compare_refl, A. cbn [CompOpp]. split; [auto|split; discriminate].
Qed.

Lemma Math_min_cases x y :
  valid_binary Float64.prec Float64.emax x = true ->
  valid_binary Float64.prec Float64.emax y = true ->
  Float64.is_nan x = false -> Float64.is_nan y = false ->
  (Math_min x y = x \/ Math_min x y = y) /\
  Float64.le (Math_min x y) x /\
  Float64.le (Math_min x y) y.
Proof.
  intros Vx Vy Nx Ny. unfold Math_min.
  rewrite (compare_valid x y Vx Vy Nx Ny).
  pose proof (compare_antisym x y) as A. unfold Float64.le.
  destruct (Float64.compare x y) eqn:C.
  - assert ((match x with S754_zero false => y | _ => x end) = x \/
            (match x with S754_zero false => y | _ => x end) = y) as [E|E]
      by (destruct x as [[]|[]| |]; auto);
      rewrite E; rewrite ?compare_refl, ?C, ?A; cbn [CompOpp];
      (split; [auto|split; discriminate]).
  - rewrite compare_refl, C. split; [auto|split; discriminate].
  - rewrite compare_refl, A. cbn [CompOpp]. split; [auto|split; discriminate].
Qed.

(** A clamped number lies between the bounds, and a number that already lies
    between them keeps its value.  The numbers are any binary64 values other
    than NaN, the infinities included. *)
Theorem clamp_within (value min max : spec_float) :
  valid_binary Float64.prec Float64.emax value = true ->
  valid_binary Float64.prec Float64.emax min = true ->
  valid_binary Float64.prec Float64.emax max = true ->
  Float64.is_nan value = false ->
  Float64.is_nan min = false ->
  Float64.is_nan max = false ->
  Float64.le min max ->
  Float64.le min (clamp value min max) /\
  Float64.le (clamp value min max) max /\
  (Float64.le min value -> Float64.le value max ->
   Float64.eqvb (clamp value min max) value = true).
Proof.
  intros Vv Vlo Vhi Nv Nlo Nhi L. unfold clamp.
  destruct (Math_max_cases min value Vlo Vv Nlo Nv) as (Em & Lm1 & Lm2).
  set (m := Float64.Math_max min value) in *.
  assert (valid_binary Float64.prec Float64.emax m = true) as Vm
    by (destruct Em as [-> | ->]; assumption).
  assert (Float64.is_nan m = false) as Nm
    by (destruct Em as [-> | ->]; assumption).
  destruct (Math_min_cases max m Vhi Vm Nhi Nm) as (Er & Lr1 & Lr2).
  split; [|split; [exact Lr1|]].
  - destruct Er as [-> | ->]; assumption.
  - intros L1 L2.
    assert (forall a b, Float64.le a b -> Float64.le b a ->
                        Float64.eqvb a b = true) as Anti.
    { intros a b H1 H2. unfold Float64.eqvb, Float64.le in *.
      rewrite (compare_antisym a b) in H2.
      destruct (Float64.compare a b); cbn [CompOpp] in H2; congruence. }
    apply Anti.
    + apply (le_trans _ m); [exact Lr2|].
      destruct Em as [E|E]; rewrite E; [exact L1|apply le_refl].
    + destruct Er as [E|E]; rewrite E; [exact L2|exact Lm2].
Qed.

Lemma clamp_within_witness :
  Float64.le (Float64.of_Z 1) (Float64.of_Z 10) /\
  Float64.le (Float64.of_Z 1)
    (clamp (Float64.of_Z 20) (Float64.of_Z 1) (Float64.of_Z 10)) /\
  Float64.le (clamp (Float64.of_Z 20) (Float64.of_Z 1) (Float64.of_Z 10))
    (Float64.of_Z 10).
Proof.
  assert (valid_binary Float64.prec Float64.emax (Float64.of_Z 20) = true)
    as Vv by reflexivity.
  assert (valid_binary Float64.prec Float64.emax (Float64.of_Z 1) = true)
    as Vlo by reflexivity.
  assert (valid_binary Float64.prec Float64.emax (Float64.of_Z 10) = true)
    as Vhi by reflexivity.
  assert (Float64.is_nan (Float64.of_Z 20) = false) as Nv by reflexivity.
  assert (Float64.is_nan (Float64.of_Z 1) = false) as Nlo by reflexivity.
  assert (Float64.is_nan (Float64.of_Z 10) = false) as Nhi by reflexivity.
  assert (Float64.le (Float64.of_Z 1) (Float64.of_Z 10)) as L
    by (vm_compute; discriminate).
  split; [exact L|].
  destruct (clamp_within _ _ _ Vv Vlo Vhi Nv Nlo Nhi L) as (A & B & _).
  split; [exact A|exact B].
Defined.
